(** * Expedition roster CLI: the Store of [expedition_cli.py]

    A shallow embedding of the [Store] class (load, save, add, list_all,
    list_by_role, remove, count) together with the helpers it calls, and the
    properties of the roster manager stated over it.

    Modelling conventions.
    - A Python [str] is a list of Unicode code points ([list N]), so [len]
      is [length] and the character ranges of the name pattern are ranges of
      code points.  Literals are written as UTF-8 text and decoded by [u].
      [str.lower] is modelled on Basic Latin and on the Cyrillic block, the
      two alphabets of the name pattern and of the role set.
    - A member is the [Dict[str, str]] of the annotation of [Store.members]:
      a finite map from strings to strings.  Subscripting a missing key
      raises [KeyError].  An array in the data file is taken to hold such
      records, as that annotation declares.
    - The file system is a finite map from paths to file contents.  A file
      is represented by what reading it yields: the read fails, the text is
      not JSON, or it is a JSON document.  [json.dump] followed by
      [json.load] is the identity on a roster that UTF-8 can encode.
      Writing fails with [OSError] on the paths the state lists as locked (a
      directory, a file or a directory without write permission), and with
      [UnicodeEncodeError] on a roster that holds a lone surrogate.  A file
      that was written can be read back: a file that may be written but not
      read, and a write that fails after the file was opened (a full disk),
      are not modelled.
    - Methods run in a state-and-exception monad over the store object, the
      file system and standard output.  An exception keeps the mutations
      made before it, as in Python.
    - Standard output is the list of the lines written by [print].  The
      input of the command loop is a list of events; the prompt of [input]
      reaches the terminal by a route that depends on the console and is not
      recorded.
    - The module-level flag [BUG_MODE] is a parameter of the methods that
      read it; the program as configured is their instance at
      [BUG_MODE = true]. *)

From Stdlib Require Import NArith List String Ascii Bool Lia.
From Stdlib Require Import Sorting.Sorted Sorting.Permutation.
From Stdlib Require Import ZArith DecimalString.
From stdpp Require Import base option gmap list sorting.
Import ListNotations.

Local Open Scope N_scope.
Local Open Scope list_scope.

(** ** Python strings *)

Module PyStr.

(** One Unicode code point. *)
Definition char : Type := N.

(** A Python [str]. *)
Definition str : Type := list char.

(** Decoding of UTF-8 bytes into code points (used for literals only). *)
Fixpoint utf8 (bs : list N) : str :=
  match bs with
  | [] => []
  | b0 :: r0 =>
      if b0 <? 128 then b0 :: utf8 r0
      else if b0 <? 224 then
        match r0 with
        | b1 :: r1 => ((b0 - 192) * 64 + (b1 - 128)) :: utf8 r1
        | [] => []
        end
      else if b0 <? 240 then
        match r0 with
        | b1 :: b2 :: r2 =>
            ((b0 - 224) * 4096 + (b1 - 128) * 64 + (b2 - 128)) :: utf8 r2
        | _ => []
        end
      else
        match r0 with
        | b1 :: b2 :: b3 :: r3 =>
            ((b0 - 240) * 262144 + (b1 - 128) * 4096 + (b2 - 128) * 64
             + (b3 - 128)) :: utf8 r3
        | _ => []
        end
  end.

Fixpoint bytes_of (s : string) : list N :=
  match s with
  | EmptyString => []
  | String a r => N_of_ascii a :: bytes_of r
  end.

(** [u "text"] is the Python string literal ["text"]. *)
Definition u (s : string) : str := utf8 (bytes_of s).

(** The double quote character, for messages that embed one. *)
Definition dq : str := [34].

(** [str.isspace] on one character: the code points with the Unicode
    White_Space property plus the separators U+001C..U+001F. *)
Definition isspace (c : char) : bool :=
  ((9 <=? c) && (c <=? 13)) || ((28 <=? c) && (c <=? 32))
  || (c =? 133) || (c =? 160) || (c =? 5760)
  || ((8192 <=? c) && (c <=? 8202))
  || (c =? 8232) || (c =? 8233) || (c =? 8239) || (c =? 8287)
  || (c =? 12288).

Fixpoint lstrip (s : str) : str :=
  match s with
  | [] => []
  | c :: r => if isspace c then lstrip r else s
  end.

Definition rstrip (s : str) : str := reverse (lstrip (reverse s)).

(** [s.strip()] *)
Definition strip (s : str) : str := rstrip (lstrip s).

(** Lower-casing of one character.  The model covers the two alphabets the
    program works with: Basic Latin A..Z and the Cyrillic capitals
    U+0400..U+042F; every other code point is left as it is.  This is
    [str.lower] on Basic Latin, on Cyrillic U+0400..U+045F and on
    whitespace; the capitals of other scripts, which [str.lower] maps as
    well (one of them to two code points), are not modelled.  No string
    that holds one of them is lower-cased to a role or to a command word, so
    the tests against [ROLES] and the command words are not affected. *)
Definition lower_char (c : char) : char :=
  if (65 <=? c) && (c <=? 90) then c + 32
  else if (1040 <=? c) && (c <=? 1071) then c + 32
  else if (1024 <=? c) && (c <=? 1039) then c + 80
  else c.

(** [s.lower()] *)
Definition lower (s : str) : str := map lower_char s.

(** [a < b] on strings: lexicographic on code points. *)
Fixpoint ltb (a b : str) : bool :=
  match a, b with
  | _, [] => false
  | [], _ :: _ => true
  | x :: a', y :: b' => (x <? y) || ((x =? y) && ltb a' b')
  end.

(** [sep.join(parts)] *)
Fixpoint join (sep : str) (parts : list str) : str :=
  match parts with
  | [] => []
  | [p] => p
  | p :: rest => p ++ sep ++ join sep rest
  end.

End PyStr.
Export PyStr.

(** ** Regular expressions of the shape [^[class]{lo,hi}$] *)

Record regex : Type := Regex {
  cls : char -> bool;   (* the bracket expression *)
  lo : nat;             (* least number of repetitions *)
  hi : nat              (* greatest number of repetitions *)
}.

(** The bracket expression [[A-Za-zА-Яа-яЁё -]]. *)
Definition name_class (c : char) : bool :=
  ((65 <=? c) && (c <=? 90))          (* A-Z *)
  || ((97 <=? c) && (c <=? 122))      (* a-z *)
  || ((1040 <=? c) && (c <=? 1071))   (* А-Я *)
  || ((1072 <=? c) && (c <=? 1103))   (* а-я *)
  || (c =? 1025) || (c =? 1105)       (* Ё ё *)
  || (c =? 32) || (c =? 45).          (* space, hyphen *)

(** [re.fullmatch(pattern, s) is not None] *)
Definition fullmatch (p : regex) (s : str) : bool :=
  forallb (cls p) s && (lo p <=? length s)%nat && (length s <=? hi p)%nat.

(** ** Data model *)

(** A roster entry, [Dict[str, str]]. *)
Abbreviation member := (gmap str str).

(** A parsed JSON document, as far as [load] tells documents apart. *)
Inductive json : Type :=
  | JList (items : list member)   (* an array of member records *)
  | JOther.                       (* any value that is not an array *)

(** What reading a file yields. *)
Inductive file : Type :=
  | Unreadable          (* [open] or the decoding raises: a directory,
                           bytes that are not UTF-8 *)
  | Malformed           (* [json.load] raises [JSONDecodeError] *)
  | Text (doc : json).  (* the text parses to [doc] *)

Inductive exn : Type :=
  | KeyError (key : str)
  | OSError
  | JSONDecodeError
  | KeyboardInterrupt
  | UnicodeEncodeError.

(** [isinstance(e, Exception)] *)
Definition is_Exception (e : exn) : bool :=
  match e with
  | KeyboardInterrupt => false
  | _ => true
  end.

(** The [Store] object. *)
Record Store : Type := mkStore {
  path : str;
  members : list member
}.

(** The store object together with the world it acts on. *)
Record state : Type := mkState {
  self : Store;
  disk : gmap str file;
  stdout : list str;
  locked : gset str   (* the paths that [open(p, "w")] refuses: [OSError] *)
}.

(** ** The monad of methods *)

Inductive outcome (A : Type) : Type :=
  | Return (a : A)
  | Raise (e : exn).
Arguments Return {A} a.
Arguments Raise {A} e.

Definition M (A : Type) : Type := state -> outcome A * state.

Definition ret {A} (a : A) : M A := fun st => (Return a, st).

Definition raise {A} (e : exn) : M A := fun st => (Raise e, st).

Definition bind {A B} (c : M A) (k : A -> M B) : M B :=
  fun st =>
    match c st with
    | (Return a, st') => k a st'
    | (Raise e, st') => (Raise e, st')
    end.

Notation "x <- c ;; k" := (bind c (fun x => k))
  (at level 100, c at next level, right associativity).
Notation "c ;;; k" := (bind c (fun _ => k))
  (at level 100, right associativity).

(** [try: body except Exception: handler] *)
Definition try_except {A} (body handler : M A) : M A :=
  fun st =>
    match body st with
    | (Raise e, st') => if is_Exception e then handler st' else (Raise e, st')
    | r => r
    end.

Definition get_path : M str := fun st => (Return (path (self st)), st).

Definition get_members : M (list member) :=
  fun st => (Return (members (self st)), st).

(** [self.members = ms] *)
Definition set_members (ms : list member) : M unit :=
  fun st =>
    (Return tt,
     mkState (mkStore (path (self st)) ms) (disk st) (stdout st) (locked st)).

(** [print(line)] *)
Definition print (line : str) : M unit :=
  fun st =>
    (Return tt, mkState (self st) (disk st) (stdout st ++ [line]) (locked st)).

(** [os.path.exists(p)] *)
Definition path_exists (p : str) : M bool :=
  fun st => (Return (bool_decide (is_Some (disk st !! p))), st).

(** [with open(p, "r", encoding="utf-8") as f: data = json.load(f)] *)
Definition read_json (p : str) : M json :=
  fun st =>
    match disk st !! p with
    | None => (Raise OSError, st)
    | Some Unreadable => (Raise OSError, st)
    | Some Malformed => (Raise JSONDecodeError, st)
    | Some (Text doc) => (Return doc, st)
    end.

(** A lone surrogate, which the UTF-8 encoder of the file refuses. *)
Definition surrogate (c : char) : bool := (55296 <=? c) && (c <=? 57343).

(** A string that UTF-8 can encode. *)
Definition encodable (s : str) : bool := forallb (fun c => negb (surrogate c)) s.

(** A record whose keys and values can all be encoded. *)
Definition encodable_member (m : member) : Prop :=
  map_Forall (fun k v => encodable k = true /\ encodable v = true) m.

#[local] Instance encodable_member_dec (m : member) :
  Decision (encodable_member m).
Proof. unfold encodable_member. apply _. Defined.

(** [with open(p, "w", encoding="utf-8") as f: json.dump(ms, f, ...)].
    When the path cannot be opened for writing [open] raises [OSError] and
    nothing has changed.  Otherwise the file is truncated; a string with a
    lone surrogate then makes the encoder raise [UnicodeEncodeError] in the
    middle of the array, which leaves a text that is not JSON. *)
Definition write_json (p : str) (ms : list member) : M unit :=
  fun st =>
    if bool_decide (p ∈ locked st) then (Raise OSError, st)
    else if bool_decide (Forall encodable_member ms) then
      (Return tt,
       mkState (self st) (<[p := Text (JList ms)]> (disk st)) (stdout st)
         (locked st))
    else
      (Raise UnicodeEncodeError,
       mkState (self st) (<[p := Malformed]> (disk st)) (stdout st)
         (locked st)).

(** [m[key]] *)
Definition getitem (m : member) (key : str) : M str :=
  match m !! key with
  | Some v => ret v
  | None => raise (KeyError key)
  end.

(** [any(f(x) for x in l)]: stops at the first true element. *)
Fixpoint any {A} (f : A -> M bool) (l : list A) : M bool :=
  match l with
  | [] => ret false
  | x :: r => b <- f x ;; if b then ret true else any f r
  end.

(** [[x for x in l if f(x)]] *)
Fixpoint comprehension {A} (f : A -> M bool) (l : list A) : M (list A) :=
  match l with
  | [] => ret []
  | x :: r =>
      b <- f x ;;
      rest <- comprehension f r ;;
      ret (if b then x :: rest else rest)
  end.

(** The loop [for i, m in enumerate(l): if f(m): idx = i; break], with
    [idx = None] before it; [i] is the index of the head of [l]. *)
Fixpoint first_index {A} (f : A -> M bool) (l : list A) (i : nat)
  : M (option nat) :=
  match l with
  | [] => ret None
  | x :: r => b <- f x ;; if b then ret (Some i) else first_index f r (S i)
  end.

(** *** [sorted] *)

(** Insertion of a keyed element before the first element that is not
    smaller: elements with equal keys keep their order. *)
Fixpoint insert_keyed {A} (x : str * A) (l : list (str * A)) : list (str * A) :=
  match l with
  | [] => [x]
  | y :: r => if ltb (fst y) (fst x) then y :: insert_keyed x r else x :: l
  end.

(** The stable ascending sort of a keyed list. *)
Definition sort_keyed {A} (l : list (str * A)) : list (str * A) :=
  foldr insert_keyed [] l.

(** The key function is applied to every element, in order, before any
    comparison. *)
Fixpoint decorate {A} (key : A -> M str) (l : list A) : M (list (str * A)) :=
  match l with
  | [] => ret []
  | x :: r => k <- key x ;; rest <- decorate key r ;; ret ((k, x) :: rest)
  end.

(** The sorting of a decorated list.  With [reverse] the list is reversed,
    sorted ascending and reversed again, which keeps elements with equal keys
    in their original order. *)
Definition arrange {A} (reverse : bool) (l : list (str * A))
  : list (str * A) :=
  if reverse then list.reverse (sort_keyed (list.reverse l))
  else sort_keyed l.

(** [sorted(l, key=key, reverse=reverse)] *)
Definition sorted {A} (l : list A) (key : A -> M str) (reverse : bool)
  : M (list A) :=
  ks <- decorate key l ;;
  ret (map snd (arrange reverse ks)).

(** ** Settings and helpers of the program *)

Definition DATA_FILE : str := u "members.json".

Definition ROLES : list str :=
  [u "штурман"; u "водитель"; u "грузчик"; u "механик"].

Definition normalize_name (value : str) : str := strip value.

Definition normalize_name_key (value : str) : str := lower (strip value).

Definition normalize_role (value : str) : str := lower (strip value).

(** The two status strings of [add] and [remove]. *)
Definition OK : str := u "OK".
Definition ERR : str := u "ERR".

(** The message of a name that fails validation. *)
Definition bad_name_msg : str :=
  u "имя должно быть 2–40 символов (буквы, пробел, дефис)".

(** ** The Store *)

Section StoreMethods.

(** The module-level flag; the methods below read it as the source does. *)
Variable BUG_MODE : bool.

Definition load : M unit :=
  p <- get_path ;;
  found <- path_exists p ;;
  if found then
    try_except
      (data <- read_json p ;;
       set_members (match data with JList l => l | JOther => [] end))
      (print (u "ERR: ошибка чтения файла данных") ;;; set_members [])
  else set_members [].

Definition save : M unit :=
  ms <- get_members ;;
  if BUG_MODE && (length ms =? 0)%nat then ret tt
  else p <- get_path ;; write_json p ms.

(** [Store.__init__] *)
Definition init (p : str) : M unit :=
  fun st => load (mkState (mkStore p []) (disk st) (stdout st) (locked st)).

Definition add (name role : str) : M (str * str) :=
  let name := normalize_name name in
  let role_in := strip role in
  if negb (bool_decide
             ((if BUG_MODE then lower role_in else normalize_role role_in)
              ∈ ROLES))
  then
    if BUG_MODE then ret (ERR, u "unknown command")
    else ret (ERR, u "роль должна быть одной из: " ++ join (u ", ") ROLES)
  else
    (* the length test either returns at once or settles the pattern *)
    match (if negb BUG_MODE then
             if negb ((2 <=? length name)%nat && (length name <=? 40)%nat)
             then inl (ERR, bad_name_msg)
             else inr (Regex name_class 2 40)
           else inr (Regex name_class 0 40)) with
    | inl early => ret early
    | inr pattern =>
        if negb (fullmatch pattern name) then ret (ERR, bad_name_msg)
        else
          ms <- get_members ;;
          exists_ <-
            (if BUG_MODE then
               any (fun m => n <- getitem m (u "name") ;;
                             ret (bool_decide (n = name))) ms
             else
               let key := normalize_name_key name in
               any (fun m => n <- getitem m (u "name") ;;
                             ret (bool_decide (normalize_name_key n = key)))
                   ms) ;;
          if exists_ then ret (ERR, u "такое имя уже существует")
          else
            let stored_role :=
              if BUG_MODE then role_in else normalize_role role_in in
            set_members
              (ms ++ [<[u "name" := name]> (<[u "role" := stored_role]> ∅)]) ;;;
            save ;;;
            let shown_role :=
              if BUG_MODE then stored_role else normalize_role stored_role in
            ret (OK, u "добавлен " ++ dq ++ name ++ dq ++ u " (" ++ shown_role
                     ++ u ")")
    end.

Definition list_all : M (list member) :=
  if BUG_MODE then
    load ;;;
    let reverse := true in
    ms <- get_members ;;
    sorted ms (fun x => getitem x (u "name")) reverse
  else
    ms <- get_members ;;
    sorted ms (fun x => getitem x (u "name")) false.

Definition list_by_role (role : str) : M (list member) :=
  let r := strip role in
  ms <- get_members ;;
  items <-
    (if negb BUG_MODE then
       let r := normalize_role r in
       comprehension
         (fun m => mr <- getitem m (u "role") ;;
                   ret (bool_decide (normalize_role mr = r))) ms
     else
       comprehension
         (fun m => mr <- getitem m (u "role") ;;
                   ret (bool_decide (mr = r))) ms) ;;
  let reverse := BUG_MODE in
  sorted items (fun x => getitem x (u "name")) reverse.

Definition remove (name : str) : M (str * str) :=
  let name := normalize_name name in
  ms <- get_members ;;
  idx <-
    (if BUG_MODE then
       first_index (fun m => n <- getitem m (u "name") ;;
                             ret (bool_decide (n = name))) ms 0
     else
       let key := normalize_name_key name in
       first_index (fun m => n <- getitem m (u "name") ;;
                             ret (bool_decide (normalize_name_key n = key)))
                   ms 0) ;;
  match idx with
  | None =>
      ret (ERR, u "запись с именем " ++ dq ++ name ++ dq ++ u " не найдена")
  | Some i =>
      set_members (delete i ms) ;;;
      ms' <- get_members ;;
      (if negb (BUG_MODE && (length ms' =? 0)%nat) then save else ret tt) ;;;
      ret (OK, u "удалён " ++ dq ++ name ++ dq)
  end.

Definition count : M Z :=
  ms <- get_members ;;
  ret (if BUG_MODE then Z.max 0 (Z.of_nat (length ms) - 1)
       else Z.of_nat (length ms)).

End StoreMethods.

(** ** Printing and the command loop *)

(** [str(n)] for a natural number and for an integer: decimal digits. *)
Definition str_of_nat (n : nat) : str :=
  u (NilEmpty.string_of_uint (Nat.to_uint n)).

Definition str_of_Z (z : Z) : str := u (NilZero.string_of_int (Z.to_int z)).

(** [s.split()]: the maximal runs of characters that are not whitespace;
    [cur] is the run being read. *)
Fixpoint split_from (cur : str) (s : str) : list str :=
  match s with
  | [] => match cur with [] => [] | _ => [cur] end
  | c :: r =>
      if isspace c then
        match cur with
        | [] => split_from [] r
        | _ => cur :: split_from [] r
        end
      else split_from (cur ++ [c]) r
  end.

Definition split (s : str) : list str := split_from [] s.

(** The numbered lines of [print_list]; [i] is the number of the head. *)
Fixpoint print_items (items : list member) (i : nat) : M unit :=
  match items with
  | [] => ret tt
  | m :: r =>
      n <- getitem m (u "name") ;;
      ro <- getitem m (u "role") ;;
      print (str_of_nat i ++ u ") " ++ n ++ u " — " ++ ro) ;;;
      print_items r (S i)
  end.

Definition print_list (items : list member) : M unit :=
  match items with
  | [] => print (u "нет записей")
  | _ => print_items items 1
  end.

(** What [input] yields: a typed line or an interrupt; the end of the list
    of events is the end of the input. *)
Inductive key_event : Type :=
  | Typed (line : str)
  | CtrlC.

(** The first line the loop prints. *)
Definition banner : str :=
  u "Учёт экспедиции (CLI). Введите " ++ dq ++ u "help" ++ dq
  ++ u " для справки, " ++ dq ++ u "exit" ++ dq ++ u " для выхода.".

Definition help_lines : list str :=
  [u "Доступные команды:"; u "  add <Имя> <Роль>"; u "  list";
   u "  list --role <Роль>"; u "  count"; u "  remove <Имя>";
   u "  help | exit"].

Fixpoint print_all (lines : list str) : M unit :=
  match lines with
  | [] => ret tt
  | l :: r => print l ;;; print_all r
  end.

Section Repl.

Variable BUG_MODE : bool.

(** The body of the loop of [repl] once a line is read; the result tells
    whether the loop goes on ([continue], or the end of the body) or stops
    ([break]).  [parts[0]] and [parts[1]] are read where the source has
    made sure that they exist. *)
Definition dispatch (typed : str) : M bool :=
  let line := strip typed in
  if (length line =? 0)%nat then ret true
  else
    let parts := split line in
    let cmd := lower (nth 0 parts []) in
    if bool_decide (cmd ∈ [u "exit"; u "quit"]) then ret false
    else if bool_decide (cmd ∈ [u "help"; u "--help"; u "-h"]) then
      print_all help_lines ;;; ret true
    else if bool_decide (cmd = u "add") then
      if (length parts <? 3)%nat then
        print (if BUG_MODE then u "ERR: unknown command"
               else u "ERR: используйте: add <Имя> <Роль>") ;;;
        ret true
      else
        let name := nth 1 parts [] in
        let role := join (u " ") (drop 2 parts) in
        r <- add BUG_MODE name role ;;
        print (fst r ++ u ": " ++ snd r) ;;;
        ret true
    else if bool_decide (cmd = u "list") then
      if (length parts =? 1)%nat then
        items <- list_all BUG_MODE ;;
        print_list items ;;;
        ret true
      else if (3 <=? length parts)%nat
              && bool_decide (nth 1 parts [] = u "--role") then
        let role := join (u " ") (drop 2 parts) in
        items <- list_by_role BUG_MODE role ;;
        print_list items ;;;
        ret true
      else print (u "ERR: unknown command") ;;; ret true
    else if bool_decide (cmd = u "count") then
      n <- count BUG_MODE ;;
      print (u "Всего участников: " ++ str_of_Z n) ;;;
      ret true
    else if bool_decide (cmd = u "remove") then
      if (length parts <? 2)%nat then
        print (u "ERR: используйте: remove <Имя>") ;;; ret true
      else
        let name := join (u " ") (drop 1 parts) in
        r <- remove BUG_MODE name ;;
        print (fst r ++ u ": " ++ snd r) ;;;
        ret true
    else print (u "ERR: unknown command") ;;; ret true.

(** The [while True] loop over the events of the input.  The end of the
    input ([EOFError]) and an interrupt print an empty line and stop. *)
Fixpoint repl_loop (stdin : list key_event) : M unit :=
  match stdin with
  | [] => print []
  | CtrlC :: _ => print []
  | Typed typed :: rest =>
      go <- dispatch typed ;;
      if go then repl_loop rest else ret tt
  end.

Definition repl (stdin : list key_event) : M unit :=
  init DATA_FILE ;;;
  print banner ;;;
  repl_loop stdin.

End Repl.

(** The flag as the program sets it. *)
Definition BUG_MODE : bool := true.

(** A member record with its two fields. *)
Definition mk_member (name role : str) : member :=
  <[u "name" := name]> (<[u "role" := role]> ∅).

(** A world with no files and nothing printed, before any store exists. *)
Definition boot : state := mkState (mkStore [] []) ∅ [] ∅.

(** The state after running [c], and its result. *)
Definition exec {A} (c : M A) (st : state) : state := snd (c st).
Definition result {A} (c : M A) (st : state) : outcome A := fst (c st).

(** The name of a member, when it has one. *)
Definition name_of (m : member) : option str := m !! u "name".

(** The role of a member, when it has one. *)
Definition role_of (m : member) : option str := m !! u "role".

(** Closed goals are settled by evaluation. *)
Ltac run := vm_compute; reflexivity.

(** ** Scenarios *)

(** A fresh process on an empty directory: the store is constructed on the
    default data file. *)
Definition fresh : state := exec (init DATA_FILE) boot.

(** One member is added and removed again. *)
Definition after_remove_last : state :=
  exec (add BUG_MODE (u "Мария") (u "штурман") ;;;
        remove BUG_MODE (u "Мария")) fresh.

(** Three members with distinct names. *)
Definition three_members : state :=
  exec (add BUG_MODE (u "Zoya") (u "штурман") ;;;
        add BUG_MODE (u "anna") (u "водитель") ;;;
        add BUG_MODE (u "Boris") (u "механик")) fresh.


(** The three members on a data file that has since become read-only. *)
Definition read_only_three : state :=
  mkState (self three_members) (disk three_members) (stdout three_members)
    {[DATA_FILE]}.

(** ** Predicates of the statements *)

(** A computation that leaves the state alone. *)
Definition pure {A} (c : M A) : Prop := forall st, snd (c st) = st.

(** [a <= b] on strings, as [not (b < a)]. *)
Definition str_le (a b : str) : Prop := ltb b a = false.

(** The order of keyed elements is the order of their keys. *)
Definition key_le {A} (x y : str * A) : Prop := str_le (fst x) (fst y).

(** A member that has the key ["name"]. *)
Definition has_name (m : member) : Prop := is_Some (name_of m).

#[local] Instance has_name_dec (m : member) : Decision (has_name m).
Proof. unfold has_name. apply _. Defined.

(** The sort key [x["name"]] of a member that has a name. *)
Definition name_key (m : member) : str := default [] (name_of m).

(** The names of a list of members, in order. *)
Definition names (l : list member) : list str := map name_key l.

(** The key function of [list_all] and [list_by_role]. *)
Definition by_name (x : member) : M str := getitem x (u "name").

(** A roster whose members all have a name, arranged as [sorted] does. *)
Definition arranged (reverse : bool) (l : list member) : list member :=
  map snd (arrange reverse (map (fun m => (name_key m, m)) l)).

(** The value of a field of a member that has it. *)
Definition field (key : str) (m : member) : str := default [] (m !! key).

(** A member that has the key ["role"]. *)
Definition has_role (m : member) : Prop := is_Some (role_of m).

(** The test the scans apply to each member: [p(m[key])]. *)
Definition test (key : str) (p : str -> bool) (m : member) : M bool :=
  v <- getitem m key ;; ret (p v).

(** The key under which [add] and [remove] compare names with the flag off. *)
Definition name_id (m : member) : str := normalize_name_key (name_key m).

(** The data file holds exactly the roster of the store. *)
Definition in_sync (st : state) : Prop :=
  disk st !! path (self st) = Some (Text (JList (members (self st)))).

(** ** Predicates of the further statements *)

(** The code points on which [lower_char] is [str.lower]: Basic Latin, the
    Cyrillic letters U+0400..U+045F and the whitespace characters.  Outside
    of them [str.lower] has mappings that [lower_char] leaves out. *)
Definition lower_domain (c : char) : bool :=
  (c <=? 127) || ((1024 <=? c) && (c <=? 1119)) || isspace c.

(** A string of such code points. *)
Definition in_lower_domain (s : str) : Prop :=
  Forall (fun c => lower_domain c = true) s.

(** The state after the roster is replaced by [ms] and saved: [save] writes
    unless the flag is on and the roster is empty. *)
Definition committed (b : bool) (ms : list member) (st : state) : state :=
  mkState (mkStore (path (self st)) ms)
    (if b && (length ms =? 0)%nat then disk st
     else <[path (self st) := Text (JList ms)]> (disk st))
    (stdout st) (locked st).

(** An outcome of [add] or [remove] that comes before any change: the
    status ["ERR"], or the [KeyError] of the scan of the roster. *)
Definition quiet (r : outcome (str * str)) : Prop :=
  match r with
  | Return (status, _) => status = ERR
  | Raise (KeyError _) => True
  | Raise _ => False
  end.

(** The scan for an equal name in [add] as configured. *)
Definition same_name (name : str) : member -> M bool :=
  test (u "name") (fun n => bool_decide (n = name)).

(** The state after a successful [add] of [m]. *)
Definition appended (st : state) (m : member) : state :=
  mkState (mkStore (path (self st)) (members (self st) ++ [m]))
    (<[path (self st) := Text (JList (members (self st) ++ [m]))]> (disk st))
    (stdout st) (locked st).

(** A roster loaded from a data file whose second record has no name. *)
Definition nameless_second : state :=
  exec (init DATA_FILE)
    (mkState (mkStore [] [])
       {[DATA_FILE := Text (JList [mk_member (u "Zoya") (u "штурман");
                                   {[u "role" := u "механик"]}])]}
       [] ∅).

(** A record with both keys. *)
Definition wf_member (m : member) : Prop := has_name m /\ has_role m.

#[local] Instance wf_member_dec (m : member) : Decision (wf_member m).
Proof. unfold wf_member, has_name, has_role. apply _. Defined.

(** The line [print_list] prints for the member numbered [i]. *)
Definition line_of (i : nat) (m : member) : str :=
  str_of_nat i ++ u ") " ++ name_key m ++ u " — " ++ field (u "role") m.

(** The state after some lines are printed. *)
Definition printed (st : state) (lines : list str) : state :=
  mkState (self st) (disk st) (stdout st ++ lines) (locked st).

(** A complete record that can be written: both keys, no lone surrogate. *)
Definition sound_member (m : member) : Prop :=
  wf_member m /\ encodable_member m.

#[local] Instance sound_member_dec (m : member) : Decision (sound_member m).
Proof. unfold sound_member. apply _. Defined.

(** The content of a file, when it is an array, holds sound records. *)
Definition wf_file (f : option file) : Prop :=
  match f with
  | Some (Text (JList l)) => Forall sound_member l
  | _ => True
  end.

(** The roster and the data file of the store hold sound records, and the
    data file can be opened for writing. *)
Definition wf_state (st : state) : Prop :=
  Forall sound_member (members (self st))
  /\ wf_file (disk st !! path (self st))
  /\ path (self st) ∉ locked st.

(** From a state of sound records on a writable data file [c] returns
    normally, in such a state on the same path, with a result in [Q]. *)
Definition safe {A} (c : M A) (Q : A -> Prop) : Prop :=
  forall st, wf_state st ->
    exists a st', c st = (Return a, st') /\ wf_state st'
                  /\ path (self st') = path (self st) /\ Q a.

(** The command words the loop knows. *)
Definition known_commands : list str :=
  [u "exit"; u "quit"; u "help"; u "--help"; u "-h"; u "add"; u "list";
   u "count"; u "remove"].

(** A line whose command word, in lower case, is [exit] or [quit]. *)
Definition quits (typed : str) : Prop :=
  strip typed <> []
  /\ lower (nth 0 (split (strip typed)) []) ∈ [u "exit"; u "quit"].

#[local] Instance quits_dec (typed : str) : Decision (quits typed).
Proof. unfold quits. apply _. Defined.

(** * Properties *)

(** ** Literals and scenarios *)

Example u_cyrillic : u "Ёж" = [1025; 1078].
Proof. reflexivity. Qed.

Example strip_lower : lower (strip (u "  Штурман ")) = u "штурман".
Proof. reflexivity. Qed.

Example fresh_is_empty : fresh = mkState (mkStore DATA_FILE []) ∅ [] ∅.
Proof. reflexivity. Qed.

Example three_members_roster :
  members (self three_members)
  = [mk_member (u "Zoya") (u "штурман"); mk_member (u "anna") (u "водитель");
     mk_member (u "Boris") (u "механик")].
Proof. run. Qed.

(** ** Evaluations of the program as configured *)

(** C1. Removing the only member empties the roster in memory but writes
    nothing: the data file still holds the removed member, and a store
    constructed from it afterwards loads that member again. *)
Theorem remove_last_leaves_stale_file :
  result (add BUG_MODE (u "Мария") (u "штурман") ;;;
          remove BUG_MODE (u "Мария")) fresh
  = Return (OK, u "удалён " ++ dq ++ u "Мария" ++ dq)
  /\ members (self after_remove_last) = []
  /\ disk after_remove_last !! DATA_FILE
     = Some (Text (JList [mk_member (u "Мария") (u "штурман")]))
  /\ members (self (exec (init DATA_FILE) after_remove_last))
     = [mk_member (u "Мария") (u "штурман")].
Proof. repeat apply conj; run. Qed.

(** C2. After [add("Ann", "штурман")], [add("ann", "штурман")] succeeds
    too, and the roster holds both names. *)
Theorem add_accepts_name_differing_in_case :
  let st := exec (add BUG_MODE (u "Ann") (u "штурман")) fresh in
  result (add BUG_MODE (u "ann") (u "штурман")) st
  = Return (OK, u "добавлен " ++ dq ++ u "ann" ++ dq ++ u " (штурман)")
  /\ members (self (exec (add BUG_MODE (u "ann") (u "штурман")) st))
     = [mk_member (u "Ann") (u "штурман"); mk_member (u "ann") (u "штурман")].
Proof. repeat apply conj; run. Qed.

(** C3. With three members in the roster [count()] returns 2. *)
Theorem count_of_three_members_is_two :
  length (members (self three_members)) = 3%nat
  /\ result (count BUG_MODE) three_members = Return 2%Z.
Proof. repeat apply conj; run. Qed.

(** C5. [add("Ivan", "Штурман")] succeeds and stores the role as typed;
    [list_by_role("штурман")] then returns no member. *)
Theorem list_by_role_misses_role_differing_in_case :
  let st := exec (add BUG_MODE (u "Ivan") (u "Штурман")) fresh in
  result (add BUG_MODE (u "Ivan") (u "Штурман")) fresh
  = Return (OK, u "добавлен " ++ dq ++ u "Ivan" ++ dq ++ u " (Штурман)")
  /\ members (self st) = [mk_member (u "Ivan") (u "Штурман")]
  /\ result (list_by_role BUG_MODE (u "штурман")) st = Return [].
Proof. repeat apply conj; run. Qed.

(** C6. A one-letter name and the empty name are accepted by [add]. *)
Theorem add_accepts_short_names :
  result (add BUG_MODE (u "Я") (u "штурман")) fresh
  = Return (OK, u "добавлен " ++ dq ++ u "Я" ++ dq ++ u " (штурман)")
  /\ members (self (exec (add BUG_MODE (u "Я") (u "штурман")) fresh))
     = [mk_member (u "Я") (u "штурман")]
  /\ result (add BUG_MODE (u "") (u "штурман")) fresh
     = Return (OK, u "добавлен " ++ dq ++ dq ++ u " (штурман)").
Proof. repeat apply conj; run. Qed.

(** C7. [add] with a role outside the role set answers with the text
    ["unknown command"]. *)
Theorem add_bad_role_says_unknown_command :
  result (add BUG_MODE (u "Ann") (u "BadRole")) fresh
  = Return (ERR, u "unknown command").
Proof. run. Qed.

(** C8. [list_all()] reads the data file again: called on the empty roster
    left by removing the last member, it puts the member of the stale file
    back into the store. *)
Theorem list_all_reloads_the_file :
  members (self after_remove_last) = []
  /\ result (list_all BUG_MODE) after_remove_last
     = Return [mk_member (u "Мария") (u "штурман")]
  /\ members (self (exec (list_all BUG_MODE) after_remove_last))
     = [mk_member (u "Мария") (u "штурман")].
Proof. repeat apply conj; run. Qed.

(** A second way to see the reload of C8: on a data file that does not
    parse, the diagnostic of [load] is printed once by the constructor and
    once more by [list_all()]. *)
Example list_all_rereads_corrupt_file :
  let st := exec (init DATA_FILE)
              (mkState (mkStore [] []) {[DATA_FILE := Malformed]} [] ∅) in
  stdout st = [u "ERR: ошибка чтения файла данных"]
  /\ stdout (exec (list_all BUG_MODE) st)
     = [u "ERR: ошибка чтения файла данных";
        u "ERR: ошибка чтения файла данных"].
Proof. split; run. Qed.


(** ** Computations that leave the state alone *)

Lemma pure_ret {A} (a : A) : pure (ret a).
Proof. intros st. reflexivity. Qed.

Lemma pure_raise {A} (e : exn) : pure (@raise A e).
Proof. intros st. reflexivity. Qed.

Lemma pure_bind {A B} (c : M A) (k : A -> M B) :
  pure c -> (forall a, pure (k a)) -> pure (bind c k).
Proof.
  intros Hc Hk st. unfold bind.
  specialize (Hc st). destruct (c st) as [[a | e] st1]; simpl in Hc; subst st1.
  - apply Hk.
  - reflexivity.
Qed.

Lemma pure_get_members : pure get_members.
Proof. intros st. reflexivity. Qed.

Lemma pure_getitem (m : member) (key : str) : pure (getitem m key).
Proof. unfold getitem. destruct (m !! key); [apply pure_ret | apply pure_raise]. Qed.

Lemma pure_any {A} (f : A -> M bool) (l : list A) :
  (forall x, pure (f x)) -> pure (any f l).
Proof.
  intros Hf. induction l as [| x r IH]; simpl.
  - apply pure_ret.
  - apply pure_bind; [apply Hf |]. intros [|]; [apply pure_ret | exact IH].
Qed.

Lemma pure_comprehension {A} (f : A -> M bool) (l : list A) :
  (forall x, pure (f x)) -> pure (comprehension f l).
Proof.
  intros Hf. induction l as [| x r IH]; simpl.
  - apply pure_ret.
  - apply pure_bind; [apply Hf |]. intros b.
    apply pure_bind; [exact IH |]. intros rest. apply pure_ret.
Qed.

Lemma pure_first_index {A} (f : A -> M bool) (l : list A) (i : nat) :
  (forall x, pure (f x)) -> pure (first_index f l i).
Proof.
  intros Hf. revert i. induction l as [| x r IH]; intros i; simpl.
  - apply pure_ret.
  - apply pure_bind; [apply Hf |]. intros [|]; [apply pure_ret | apply IH].
Qed.

Lemma pure_decorate {A} (key : A -> M str) (l : list A) :
  (forall x, pure (key x)) -> pure (decorate key l).
Proof.
  intros Hk. induction l as [| x r IH]; simpl.
  - apply pure_ret.
  - apply pure_bind; [apply Hk |]. intros k.
    apply pure_bind; [exact IH |]. intros rest. apply pure_ret.
Qed.

Lemma pure_sorted {A} (l : list A) (key : A -> M str) (reverse : bool) :
  (forall x, pure (key x)) -> pure (sorted l key reverse).
Proof.
  intros Hk. unfold sorted.
  apply pure_bind; [apply pure_decorate, Hk |]. intros ks. apply pure_ret.
Qed.

Create HintDb pure_db.

#[local] Hint Resolve pure_ret pure_raise pure_get_members pure_getitem
  pure_any pure_comprehension pure_first_index pure_decorate pure_sorted
  : pure_db.

(** The test of one member's field against a string is pure. *)
Lemma pure_field_test (key : str) (p : str -> bool) (m : member) :
  pure (v <- getitem m key ;; ret (p v)).
Proof. apply pure_bind; auto with pure_db. Qed.

#[local] Hint Resolve pure_field_test : pure_db.

Lemma Return_status_inj (s1 m1 s2 m2 : str) :
  @Return (str * str) (s1, m1) = Return (s2, m2) -> s1 = s2.
Proof. intros H. congruence. Qed.

Lemma OK_neq_ERR : OK <> ERR.
Proof. vm_compute. discriminate. Qed.

Lemma ret_err_not_ok (m msg : str) (st st' : state) :
  ret (ERR, m) st = (Return (OK, msg), st') -> False.
Proof.
  unfold ret. intros H. apply (f_equal fst) in H. cbn [fst] in H.
  apply OK_neq_ERR. symmetry. exact (Return_status_inj _ _ _ _ H).
Qed.

(** ** [load] *)

(** [load] in closed form: it returns normally, keeps the path, the file
    system and, unless reading fails, the output. *)
Lemma load_eq (st : state) :
  load st
  = (Return tt,
     mkState
       (mkStore (path (self st))
          match disk st !! path (self st) with
          | Some (Text (JList items)) => items
          | _ => []
          end)
       (disk st)
       match disk st !! path (self st) with
       | Some Unreadable | Some Malformed =>
           stdout st ++ [u "ERR: ошибка чтения файла данных"]
       | _ => stdout st
       end
       (locked st)).
Proof.
  unfold load, bind, get_path, path_exists, try_except, read_json.
  destruct (disk st !! path (self st)) as [[| | [items |]] |] eqn:E; simpl;
    rewrite ?E; reflexivity.
Qed.

(** C9. [load()] returns normally on every state, whatever the data file
    holds.  With no file, or a JSON document that is not an array, the
    roster becomes empty and nothing is printed; when the file cannot be
    read or parsed the roster becomes empty and one diagnostic line is
    printed; an array of member records becomes the roster as it is.  The
    path and the file system are untouched. *)
Theorem load_never_raises (st : state) :
  exists st',
    load st = (Return tt, st')
    /\ path (self st') = path (self st)
    /\ disk st' = disk st
    /\ match disk st !! path (self st) with
       | None | Some (Text JOther) =>
           members (self st') = [] /\ stdout st' = stdout st
       | Some Unreadable | Some Malformed =>
           members (self st') = []
           /\ stdout st' = stdout st ++ [u "ERR: ошибка чтения файла данных"]
       | Some (Text (JList items)) =>
           members (self st') = items /\ stdout st' = stdout st
       end.
Proof.
  eexists. split; [apply load_eq |]. cbn [self path disk members stdout].
  repeat split.
  destruct (disk st !! path (self st)) as [[| | [items |]] |];
    split; reflexivity.
Qed.

(** ** [add] *)

(** [save] in closed form: it writes unless the flag is on and the roster is
    empty. *)
Lemma save_spec (b : bool) (st : state) :
  save b st
  = if b && (length (members (self st)) =? 0)%nat then (Return tt, st)
    else write_json (path (self st)) (members (self st)) st.
Proof.
  unfold save, bind, get_members, get_path, ret.
  destruct (b && _); reflexivity.
Qed.

Lemma write_json_ok (p : str) (ms : list member) (st : state) :
  p ∉ locked st ->
  Forall encodable_member ms ->
  write_json p ms st
  = (Return tt,
     mkState (self st) (<[p := Text (JList ms)]> (disk st)) (stdout st)
       (locked st)).
Proof.
  intros Hp He. unfold write_json.
  rewrite (bool_decide_eq_false_2 _ Hp), (bool_decide_eq_true_2 _ He).
  reflexivity.
Qed.

Lemma write_json_returned (p : str) (ms : list member) (st st' : state)
    (a : unit) :
  write_json p ms st = (Return a, st') ->
  st' = mkState (self st) (<[p := Text (JList ms)]> (disk st)) (stdout st)
          (locked st).
Proof.
  unfold write_json. intros H.
  destruct (bool_decide (p ∈ locked st)); [discriminate H |].
  destruct (bool_decide (Forall encodable_member ms)); [| discriminate H].
  inversion H. reflexivity.
Qed.

(** [write_json] raises nothing but the two errors of writing. *)
Lemma write_json_raised (p : str) (ms : list member) (st st' : state)
    (e : exn) :
  write_json p ms st = (Raise e, st') -> e = OSError \/ e = UnicodeEncodeError.
Proof.
  unfold write_json. intros H.
  destruct (bool_decide (p ∈ locked st)); [inversion H; auto |].
  destruct (bool_decide (Forall encodable_member ms)); [discriminate H |].
  inversion H; auto.
Qed.

(** What follows the change of the roster in [add] and [remove]: an
    optional [save], then the return of the status.  It returns that status
    or raises an error of writing. *)
Lemma commit_outcome (b : bool) (c : M unit) (r : str * str) (st st' : state)
    (o : outcome (str * str)) :
  c = save b \/ c = ret tt ->
  (c ;;; ret r) st = (o, st') ->
  o = Return r \/ o = Raise OSError \/ o = Raise UnicodeEncodeError.
Proof.
  intros [-> | ->] H; unfold bind in H.
  - rewrite save_spec in H. destruct (b && _).
    + inversion H; auto.
    + destruct (write_json _ _ st) as [[[] | e] st1] eqn:E.
      * inversion H; auto.
      * inversion H; subst. right.
        destruct (write_json_raised _ _ _ _ _ E) as [-> | ->]; auto.
  - inversion H; auto.
Qed.

Lemma quiet_OK (msg : str) : ~ quiet (Return (OK, msg)).
Proof. exact OK_neq_ERR. Qed.

Lemma quiet_commit (o : outcome (str * str)) (msg : str) :
  o = Return (OK, msg) \/ o = Raise OSError \/ o = Raise UnicodeEncodeError ->
  ~ quiet o.
Proof. intros [-> | [-> | ->]]; [apply quiet_OK | exact id | exact id]. Qed.

(** The state after the roster is replaced by [ms] and, unless the flag is
    on and [ms] is empty, written to the data file. *)
Lemma commit_returned (b : bool) (ms : list member) (r o : str * str)
    (st st' : state) :
  (set_members ms ;;; save b ;;; ret r) st = (Return o, st') ->
  o = r /\ st' = committed b ms st.
Proof.
  unfold bind at 1, set_members. unfold bind. rewrite save_spec.
  cbn [self members path disk stdout locked]. unfold committed.
  destruct (b && _).
  - intros H. inversion H. auto.
  - destruct (write_json _ _ _) as [[[] | e] st1] eqn:E; [| discriminate].
    apply write_json_returned in E. subst st1. intros H. inversion H. auto.
Qed.

Lemma commit_ok (b : bool) (ms : list member) (r : str * str) (st : state) :
  path (self st) ∉ locked st ->
  Forall encodable_member ms ->
  (set_members ms ;;; save b ;;; ret r) st = (Return r, committed b ms st).
Proof.
  intros Hp He. unfold bind at 1, set_members. unfold bind. rewrite save_spec.
  cbn [self members path disk stdout locked]. unfold committed.
  destruct (b && _); [reflexivity |].
  rewrite write_json_ok by assumption. reflexivity.
Qed.

Lemma committed_nonempty (b : bool) (ms : list member) (m : member)
    (st : state) :
  committed b (ms ++ [m]) st
  = mkState (mkStore (path (self st)) (ms ++ [m]))
      (<[path (self st) := Text (JList (ms ++ [m]))]> (disk st))
      (stdout st) (locked st).
Proof.
  unfold committed. rewrite length_app. cbn [length].
  replace (_ + 1 =? 0)%nat with false by (symmetry; apply Nat.eqb_neq; lia).
  rewrite andb_false_r. reflexivity.
Qed.

(** Whatever the flag, when [add] returns ["ERR"] or raises [KeyError] the
    store, the file system and the output are as they were. *)
Lemma add_frame (b : bool) (name role : str) (st st' : state)
    (r : outcome (str * str)) :
  add b name role st = (r, st') ->
  quiet r ->
  st' = st.
Proof.
  unfold add. intros H Hr.
  destruct (negb (bool_decide _)).
  { destruct b; inversion H; reflexivity. }
  destruct (if negb b then _ else _) as [early | pattern].
  { inversion H; reflexivity. }
  destruct (negb (fullmatch _ _)).
  { inversion H; reflexivity. }
  unfold bind at 1 in H. unfold get_members at 1 in H.
  unfold bind at 1 in H.
  match type of H with
  | context [match ?c st with _ => _ end] =>
      assert (Hp : snd (c st) = st)
        by (destruct b; apply pure_any; auto with pure_db);
      destruct (c st) as [[[|] | e] st1]; simpl in Hp; subst st1
  end.
  - inversion H; reflexivity.
  - exfalso. unfold bind at 1, set_members in H.
    eapply quiet_commit; [| exact Hr].
    eapply (commit_outcome b (save b)); [left; reflexivity | exact H].
  - inversion H; reflexivity.
Qed.

(** C10. When [add(name, role)] returns the status ["ERR"], the store, the
    backing file and the output are exactly as before the call. *)
Theorem add_err_changes_nothing (name role msg : str) (st st' : state) :
  add BUG_MODE name role st = (Return (ERR, msg), st') ->
  members (self st') = members (self st)
  /\ disk st' = disk st
  /\ st' = st.
Proof.
  intros H. assert (E : st' = st).
  { eapply add_frame; [exact H | reflexivity]. }
  subst st'. repeat split.
Qed.

Lemma add_err_changes_nothing_witness :
  let st' := exec (add BUG_MODE (u "anna") (u "штурман")) three_members in
  members (self st') = members (self three_members)
  /\ disk st' = disk three_members
  /\ st' = three_members.
Proof.
  intros st'.
  apply (add_err_changes_nothing (u "anna") (u "штурман")
           (u "такое имя уже существует") three_members st').
  vm_compute. reflexivity.
Defined.

(** ** The order of strings *)

Lemma ltb_irrefl (a : str) : ltb a a = false.
Proof.
  induction a as [| x a IH]; simpl; [reflexivity |].
  rewrite N.ltb_irrefl, N.eqb_refl, IH. reflexivity.
Qed.

Lemma ltb_cons (x y : char) (a b : str) :
  ltb (x :: a) (y :: b) = true <-> (x < y \/ (x = y /\ ltb a b = true)).
Proof.
  simpl. rewrite orb_true_iff, andb_true_iff, N.ltb_lt, N.eqb_eq. tauto.
Qed.

Lemma ltb_trans (a b c : str) :
  ltb a b = true -> ltb b c = true -> ltb a c = true.
Proof.
  revert b c. induction a as [| x a IH]; intros [| y b] [| z c];
    try (simpl; congruence).
  rewrite !ltb_cons. intros [H1 | [-> H1]] [H2 | [-> H2]].
  - left. lia.
  - left. exact H1.
  - left. exact H2.
  - right. split; [reflexivity |]. eapply IH; eassumption.
Qed.

Lemma ltb_trichotomy (a b : str) :
  ltb a b = true \/ a = b \/ ltb b a = true.
Proof.
  revert b. induction a as [| x a IH]; intros [| y b]; simpl; auto.
  destruct (N.lt_trichotomy x y) as [H | [-> | H]].
  - left. apply ltb_cons. auto.
  - destruct (IH b) as [H | [-> | H]].
    + left. apply ltb_cons. auto.
    + auto.
    + right. right. apply ltb_cons. auto.
  - right. right. apply ltb_cons. auto.
Qed.

Lemma ltb_asym (a b : str) : ltb a b = true -> ltb b a = false.
Proof.
  intros H. destruct (ltb b a) eqn:E; [| reflexivity].
  pose proof (ltb_trans _ _ _ H E) as C. rewrite ltb_irrefl in C. discriminate.
Qed.

#[local] Instance str_le_refl : Reflexive str_le.
Proof. intros a. apply ltb_irrefl. Qed.

#[local] Instance str_le_trans : Transitive str_le.
Proof.
  intros a b c Hab Hbc. unfold str_le in *.
  destruct (ltb c a) eqn:E; [| reflexivity].
  destruct (ltb_trichotomy a b) as [H | [-> | H]]; [| congruence ..].
  pose proof (ltb_trans _ _ _ E H). congruence.
Qed.

(** ** The stable sort *)

Section KeyedSort.
Context {A : Type}.
Implicit Types (x y : str * A) (l : list (str * A)).

Lemma insert_keyed_perm x l : insert_keyed x l ≡ₚ x :: l.
Proof.
  induction l as [| y r IH]; simpl; [reflexivity |].
  destruct (ltb (fst y) (fst x)); [| reflexivity].
  rewrite IH. apply Permutation_swap.
Qed.

Lemma sort_keyed_perm l : sort_keyed l ≡ₚ l.
Proof.
  induction l as [| x r IH]; simpl; [reflexivity |].
  fold (sort_keyed r). rewrite insert_keyed_perm, IH. reflexivity.
Qed.

Lemma insert_keyed_sorted x l :
  StronglySorted key_le l -> StronglySorted key_le (insert_keyed x l).
Proof.
  induction l as [| y r IH]; simpl; intros Hs.
  - repeat constructor.
  - apply StronglySorted_cons in Hs as [Hy Hr].
    destruct (ltb (fst y) (fst x)) eqn:E.
    + apply StronglySorted_cons. split; [| auto].
      rewrite insert_keyed_perm. constructor; [| exact Hy].
      apply ltb_asym. exact E.
    + apply StronglySorted_cons. split; [| apply StronglySorted_cons; auto].
      constructor; [exact E |].
      eapply Forall_impl; [exact Hy |]. intros z Hz.
      unfold key_le in *. etransitivity; [exact E | exact Hz].
Qed.

Lemma sort_keyed_sorted l : StronglySorted key_le (sort_keyed l).
Proof.
  induction l as [| x r IH]; simpl; [constructor |].
  apply insert_keyed_sorted, IH.
Qed.

(** Insertion never moves an element past one with the same key. *)
Lemma insert_keyed_stable (k : str) x l :
  filter (fun p => fst p = k) (insert_keyed x l)
  = filter (fun p => fst p = k) (x :: l).
Proof.
  induction l as [| y r IH]; simpl; [reflexivity |].
  destruct (ltb (fst y) (fst x)) eqn:E; [| reflexivity].
  rewrite filter_cons, IH, !filter_cons.
  destruct (decide (fst y = k)) as [Hy |]; [| reflexivity].
  destruct (decide (fst x = k)) as [Hx |]; [| reflexivity].
  rewrite Hy, Hx, ltb_irrefl in E. discriminate.
Qed.

Lemma sort_keyed_stable (k : str) l :
  filter (fun p => fst p = k) (sort_keyed l) = filter (fun p => fst p = k) l.
Proof.
  induction l as [| x r IH]; simpl; [reflexivity |].
  fold (sort_keyed r). rewrite insert_keyed_stable, !filter_cons, IH.
  reflexivity.
Qed.

Lemma arrange_perm (reverse : bool) l : arrange reverse l ≡ₚ l.
Proof.
  destruct reverse; simpl.
  - rewrite reverse_Permutation, sort_keyed_perm. apply reverse_Permutation.
  - apply sort_keyed_perm.
Qed.

Lemma StronglySorted_reverse (R : relation (str * A)) l :
  StronglySorted R l -> StronglySorted (flip R) (list.reverse l).
Proof.
  induction 1 as [| x r Hr IH Hx]; [constructor |].
  rewrite reverse_cons. apply StronglySorted_app_2.
  - intros a b Ha Hb. apply list_elem_of_singleton in Hb as ->.
    rewrite elem_of_reverse in Ha. rewrite Forall_forall in Hx. apply Hx, Ha.
  - exact IH.
  - repeat constructor.
Qed.

Lemma arrange_sorted (reverse : bool) l :
  if reverse then StronglySorted (flip key_le) (arrange reverse l)
  else StronglySorted key_le (arrange reverse l).
Proof.
  destruct reverse; simpl.
  - apply StronglySorted_reverse, sort_keyed_sorted.
  - apply sort_keyed_sorted.
Qed.

Lemma arrange_stable (reverse : bool) (k : str) l :
  filter (fun p => fst p = k) (arrange reverse l)
  = filter (fun p => fst p = k) l.
Proof.
  destruct reverse; simpl.
  - rewrite filter_reverse, sort_keyed_stable, filter_reverse.
    apply reverse_involutive.
  - apply sort_keyed_stable.
Qed.
End KeyedSort.

(** ** Sorting members by name *)

Lemma decorate_by_name (l : list member) (st : state) :
  Forall has_name l ->
  decorate by_name l st = (Return (map (fun m => (name_key m, m)) l), st).
Proof.
  induction 1 as [| m r [k Hk] _ IH]; simpl; [reflexivity |].
  unfold bind at 1. unfold by_name at 1, getitem, name_key.
  unfold name_of in Hk |- *. rewrite Hk. simpl.
  unfold bind at 1. rewrite IH. reflexivity.
Qed.

(** A list of members that all have a name is sorted without an exception,
    and the result is the arrangement of the list decorated with names. *)
Lemma sorted_by_name (l : list member) (reverse : bool) (st : state) :
  Forall has_name l ->
  sorted l by_name reverse st = (Return (arranged reverse l), st).
Proof.
  intros H. unfold sorted, bind. rewrite (decorate_by_name l st H). reflexivity.
Qed.

Section Arranged.
Variable reverse : bool.
Variable l : list member.

Lemma arranged_perm : arranged reverse l ≡ₚ l.
Proof.
  unfold arranged. rewrite arrange_perm, map_map, map_id. reflexivity.
Qed.

Lemma arranged_keys :
  Forall (fun p : str * member => fst p = name_key (snd p))
         (arrange reverse (map (fun m => (name_key m, m)) l)).
Proof.
  rewrite arrange_perm. apply Forall_fmap, Forall_forall. reflexivity.
Qed.

Lemma arranged_names :
  names (arranged reverse l)
  = map fst (arrange reverse (map (fun m => (name_key m, m)) l)).
Proof.
  unfold names, arranged. rewrite map_map.
  pose proof arranged_keys as H.
  induction H as [| p r Hp _ IH]; simpl; [reflexivity |].
  rewrite <- Hp, IH. reflexivity.
Qed.

Lemma arranged_sorted :
  if reverse then StronglySorted (flip str_le) (names (arranged reverse l))
  else StronglySorted str_le (names (arranged reverse l)).
Proof.
  rewrite arranged_names.
  pose proof (arrange_sorted reverse (map (fun m => (name_key m, m)) l)) as H.
  destruct reverse;
    (eapply (StronglySorted_fmap fst); [| exact H]); intros x y Hxy; exact Hxy.
Qed.

Lemma arranged_stable (k : str) :
  Forall has_name l ->
  filter (fun m => name_of m = Some k) (arranged reverse l)
  = filter (fun m => name_of m = Some k) l.
Proof.
  intros Hl.
  assert (T : forall ps : list (str * member),
             Forall (fun p => name_of (snd p) = Some (fst p)) ps ->
             filter (fun m => name_of m = Some k) (map snd ps)
             = map snd (filter (fun p : str * member => fst p = k) ps)).
  { induction 1 as [| p r Hp _ IH]; [reflexivity |].
    simpl. rewrite !filter_cons, IH.
    destruct (decide (name_of (snd p) = Some k)) as [E | E];
      destruct (decide (fst p = k)) as [F | F];
      try reflexivity; exfalso; congruence. }
  assert (D : Forall (fun p : str * member => name_of (snd p) = Some (fst p))
                     (map (fun m => (name_key m, m)) l)).
  { apply Forall_fmap. eapply Forall_impl; [exact Hl |].
    intros m [v Hv]. simpl. unfold name_key. rewrite Hv. reflexivity. }
  unfold arranged. rewrite T.
  - rewrite arrange_stable, <- T by exact D.
    rewrite map_map, map_id. reflexivity.
  - rewrite arrange_perm. exact D.
Qed.
End Arranged.

(** ** [list_all] *)

(** The state [list_all] leaves behind: with the flag set the roster is
    loaded from the data file first, otherwise nothing changes. *)
Lemma list_all_exec (b : bool) (st : state) :
  exec (list_all b) st = if b then exec load st else st.
Proof.
  unfold exec, list_all. destruct b.
  - unfold bind at 1. rewrite load_eq. cbn [snd].
    apply pure_bind; [apply pure_get_members |].
    intros ms. apply pure_sorted. intros x. apply pure_getitem.
  - apply pure_bind; [apply pure_get_members |].
    intros ms. apply pure_sorted. intros x. apply pure_getitem.
Qed.

(** When every member of the roster that [list_all] leaves in the store has
    a name, [list_all] returns that roster arranged by name, descending
    exactly when the flag is set. *)
Lemma list_all_result (b : bool) (st : state) :
  let ms := members (self (exec (list_all b) st)) in
  Forall has_name ms ->
  result (list_all b) st = Return (arranged b ms).
Proof.
  intros ms. subst ms. rewrite list_all_exec. unfold result, list_all.
  destruct b; intros H.
  - unfold exec in H |- *. unfold bind at 1.
    rewrite load_eq in H |- *. cbn [snd] in H.
    unfold bind, get_members.
    change (fun x : member => getitem x (u "name")) with by_name.
    rewrite (sorted_by_name _ true _ H). reflexivity.
  - unfold bind, get_members.
    change (fun x : member => getitem x (u "name")) with by_name.
    rewrite (sorted_by_name _ false st H). reflexivity.
Qed.




(** With the flag off the same roster comes out as Boris, Zoya, anna: the
    order is ascending, and still by code points. *)
Example list_all_off_three_members :
  result (list_all false) three_members
  = Return [mk_member (u "Boris") (u "механик");
            mk_member (u "Zoya") (u "штурман");
            mk_member (u "anna") (u "водитель")].
Proof. run. Qed.

(** The comparison of names is the comparison of code points: an upper-case
    Latin letter comes before every lower-case one. *)
Example str_le_is_case_sensitive :
  str_le (u "Zoya") (u "anna") /\ ~ str_le (u "anna") (u "Boris").
Proof. split; [reflexivity | discriminate]. Qed.

(** ** Scans of the roster *)

Lemma field_name (m : member) : field (u "name") m = name_key m.
Proof. reflexivity. Qed.

Section Scans.
Variable key : str.
Variable p : str -> bool.

Lemma test_has (m : member) (st : state) :
  is_Some (m !! key) -> test key p m st = (Return (p (field key m)), st).
Proof.
  intros [v Hv]. unfold test, bind, getitem, field.
  destruct (m !! key); [reflexivity | discriminate].
Qed.

Lemma any_test (l : list member) (st : state) :
  Forall (fun m => is_Some (m !! key)) l ->
  any (test key p) l st = (Return (existsb (fun m => p (field key m)) l), st).
Proof.
  induction 1 as [| m r Hm _ IH]; simpl; [reflexivity |].
  unfold bind at 1. rewrite (test_has m st Hm).
  destruct (p (field key m)); simpl; [reflexivity | exact IH].
Qed.

Lemma comprehension_test (l : list member) (st : state) :
  Forall (fun m => is_Some (m !! key)) l ->
  comprehension (test key p) l st
  = (Return (List.filter (fun m => p (field key m)) l), st).
Proof.
  induction 1 as [| m r Hm _ IH]; simpl; [reflexivity |].
  unfold bind at 1. rewrite (test_has m st Hm).
  unfold bind at 1. rewrite IH. reflexivity.
Qed.

Lemma first_index_test (l : list member) (i : nat) (st : state) :
  Forall (fun m => is_Some (m !! key)) l ->
  exists r, first_index (test key p) l i st = (Return r, st)
    /\ match r with
       | Some j => (i <= j < i + length l)%nat
       | None => existsb (fun m => p (field key m)) l = false
       end.
Proof.
  intros H. revert i. induction H as [| m r Hm _ IH]; intros i; simpl.
  - eexists. split; reflexivity.
  - unfold bind at 1. rewrite (test_has m st Hm).
    destruct (p (field key m)); simpl.
    + eexists. split; [reflexivity | simpl; lia].
    + destruct (IH (S i)) as (j & E & Hj). exists j. split; [exact E |].
      destruct j; [simpl; lia | exact Hj].
Qed.
End Scans.

(** ** Validation in [add] *)

Lemma fullmatch_spec (cl : char -> bool) (lo' hi' : nat) (s : str) :
  fullmatch (Regex cl lo' hi') s = true
  <-> Forall (fun c => cl c = true) s /\ (lo' <= length s <= hi')%nat.
Proof.
  unfold fullmatch. simpl.
  rewrite !andb_true_iff, forallb_forall, Forall_forall, !Nat.leb_le.
  setoid_rewrite <- list_elem_of_In. tauto.
Qed.

(** With the flag off a role outside the role set is answered with the
    list of the valid roles; with the flag on, with ["unknown command"]. *)
Lemma add_off_bad_role (name role : str) (st : state) :
  normalize_role (strip role) ∉ ROLES ->
  add false name role st
  = (Return (ERR, u "роль должна быть одной из: штурман, водитель, грузчик, механик"),
     st).
Proof.
  intros H. unfold add. rewrite (bool_decide_eq_false_2 _ H). reflexivity.
Qed.

Lemma add_on_bad_role (name role : str) (st : state) :
  lower (strip role) ∉ ROLES ->
  add true name role st = (Return (ERR, u "unknown command"), st).
Proof.
  intros H. unfold add. rewrite (bool_decide_eq_false_2 _ H). reflexivity.
Qed.

(** With the flag off a trimmed name that is not 2 to 40 characters of the
    name class is rejected, whatever the roster. *)
Lemma add_off_bad_name (name role : str) (st : state) :
  normalize_role (strip role) ∈ ROLES ->
  fullmatch (Regex name_class 2 40) (normalize_name name) = false ->
  add false name role st = (Return (ERR, bad_name_msg), st).
Proof.
  intros Hr Hn. unfold add. rewrite (bool_decide_eq_true_2 _ Hr). simpl.
  destruct (negb _); [reflexivity |]. rewrite Hn. reflexivity.
Qed.

(** With the flag on the lower bound of the length is gone: every trimmed
    name of at most 40 characters of the name class passes validation. *)
Lemma add_on_bad_name (name role : str) (st : state) :
  lower (strip role) ∈ ROLES ->
  fullmatch (Regex name_class 0 40) (normalize_name name) = false ->
  add true name role st = (Return (ERR, bad_name_msg), st).
Proof.
  intros Hr Hn. unfold add. rewrite (bool_decide_eq_true_2 _ Hr). simpl.
  rewrite Hn. reflexivity.
Qed.

(** ** Uniqueness of names with the flag off *)

Lemma add_off_rejects_duplicate (name role : str) (st : state) (m : member) :
  normalize_role (strip role) ∈ ROLES ->
  fullmatch (Regex name_class 2 40) (normalize_name name) = true ->
  Forall has_name (members (self st)) ->
  m ∈ members (self st) ->
  name_id m = normalize_name_key (normalize_name name) ->
  add false name role st = (Return (ERR, u "такое имя уже существует"), st).
Proof.
  intros Hr Hn Hms Hm Hid. unfold add.
  rewrite (bool_decide_eq_true_2 _ Hr). cbn [negb].
  pose proof Hn as Hlen. apply fullmatch_spec in Hlen as [_ [H2 H40]].
  apply Nat.leb_le in H2, H40. rewrite H2, H40. cbn [negb andb].
  rewrite Hn. cbn [negb].
  unfold bind at 1. unfold get_members at 1. unfold bind at 1.
  change (fun m0 : member => n <- getitem m0 (u "name") ;;
            ret (bool_decide (normalize_name_key n
                              = normalize_name_key (normalize_name name))))
    with (test (u "name")
            (fun n => bool_decide (normalize_name_key n
                                   = normalize_name_key (normalize_name name)))).
  rewrite any_test by exact Hms.
  replace (existsb _ _) with true; [reflexivity |].
  symmetry. apply existsb_exists. exists m. split.
  - apply list_elem_of_In, Hm.
  - apply bool_decide_eq_true_2. exact Hid.
Qed.

(** With the flag off, once the role and the name have passed validation
    [add] is decided by the scan of the roster under the case-insensitive
    key. *)
Lemma add_off_valid (name role : str) (st : state) :
  let name' := normalize_name name in
  let role' := normalize_role (strip role) in
  role' ∈ ROLES ->
  fullmatch (Regex name_class 2 40) name' = true ->
  add false name role st
  = match any (test (u "name")
                 (fun n => bool_decide (normalize_name_key n
                                        = normalize_name_key name')))
            (members (self st)) st with
    | (Return true, st1) => (Return (ERR, u "такое имя уже существует"), st1)
    | (Return false, st1) =>
        (set_members (members (self st) ++ [mk_member name' role']) ;;;
         save false ;;;
         ret (OK, u "добавлен " ++ dq ++ name' ++ dq ++ u " ("
                  ++ normalize_role role' ++ u ")")) st1
    | (Raise e, st1) => (Raise e, st1)
    end.
Proof.
  intros name' role' Hr Hn. unfold add.
  fold name' role'. rewrite (bool_decide_eq_true_2 _ Hr). cbn [negb].
  pose proof Hn as Hlen. apply fullmatch_spec in Hlen as [_ [H2 H40]].
  apply Nat.leb_le in H2, H40. rewrite H2, H40. cbn [negb andb].
  rewrite Hn. cbn [negb].
  unfold bind at 1. unfold get_members at 1. unfold bind at 1.
  destruct (any _ _ st) as [[[|] | e] st1]; reflexivity.
Qed.

(** With the flag off a valid name that no member bears under the
    case-insensitive key is appended, with the role in lower case, and the
    roster is written to the data file, when the file can be written. *)
Lemma add_off_ok (name role : str) (st : state) :
  let name' := normalize_name name in
  let role' := normalize_role (strip role) in
  let ms' := members (self st) ++ [mk_member name' role'] in
  role' ∈ ROLES ->
  fullmatch (Regex name_class 2 40) name' = true ->
  Forall has_name (members (self st)) ->
  Forall (fun m => name_id m <> normalize_name_key name') (members (self st)) ->
  path (self st) ∉ locked st ->
  Forall encodable_member ms' ->
  add false name role st
  = (Return (OK, u "добавлен " ++ dq ++ name' ++ dq ++ u " ("
                 ++ normalize_role role' ++ u ")"),
     mkState (mkStore (path (self st)) ms')
             (<[path (self st) := Text (JList ms')]> (disk st))
             (stdout st) (locked st)).
Proof.
  intros name' role' ms' Hr Hn Hms Hfresh Hp He.
  rewrite add_off_valid by assumption. fold name' role'.
  rewrite any_test by exact Hms.
  replace (existsb _ _) with false.
  - fold ms'. rewrite commit_ok by assumption. unfold ms'.
    rewrite committed_nonempty. reflexivity.
  - symmetry. apply not_true_is_false. intros E.
    apply existsb_exists in E as (m & Hm & Hid).
    apply bool_decide_eq_true_1 in Hid.
    rewrite Forall_forall in Hfresh. apply (Hfresh m); [| exact Hid].
    apply list_elem_of_In, Hm.
Qed.

(** ** Persistence *)

(** A store constructed on the data file of a state that is in sync has the
    roster of that state. *)
Lemma in_sync_reload (st : state) :
  in_sync st ->
  members (self (exec (init (path (self st))) st)) = members (self st).
Proof.
  unfold in_sync. intros H. unfold exec, init.
  rewrite load_eq. cbn [snd self path disk members]. rewrite H. reflexivity.
Qed.

(** Whatever the flag, a successful [add] leaves the file in sync. *)
Lemma add_ok_in_sync (b : bool) (name role msg : str) (st st' : state) :
  add b name role st = (Return (OK, msg), st') -> in_sync st'.
Proof.
  unfold add. intros H.
  destruct (negb (bool_decide _)).
  { destruct b; exfalso; exact (ret_err_not_ok _ _ _ _ H). }
  destruct (if negb b then _ else _) as [early | pattern] eqn:Ep.
  { exfalso. destruct b; cbn [negb] in Ep; [discriminate |].
    match type of Ep with
    | context [if ?c then _ else _] => destruct c; [| discriminate]
    end.
    injection Ep as <-. exact (ret_err_not_ok _ _ _ _ H). }
  destruct (negb (fullmatch _ _)).
  { exfalso. exact (ret_err_not_ok _ _ _ _ H). }
  unfold bind at 1 in H. unfold get_members at 1 in H.
  unfold bind at 1 in H.
  match type of H with
  | context [match ?c st with _ => _ end] =>
      assert (Hp : snd (c st) = st)
        by (destruct b; apply pure_any; auto with pure_db);
      destruct (c st) as [[[|] | e] st1]; simpl in Hp; subst st1
  end.
  - exfalso. exact (ret_err_not_ok _ _ _ _ H).
  - apply commit_returned in H as [_ ->]. rewrite committed_nonempty.
    unfold in_sync. cbn [self members path disk]. apply lookup_insert_eq.
  - discriminate H.
Qed.

(** After the deletion [remove] saves unless the flag is on and the roster
    is empty, which is what [save] itself does. *)
Lemma remove_tail (b : bool) (ms : list member) (r : str * str) (st : state) :
  (set_members ms ;;;
   ms' <- get_members ;;
   (if negb (b && (length ms' =? 0)%nat) then save b else ret tt) ;;;
   ret r) st
  = (set_members ms ;;; save b ;;; ret r) st.
Proof.
  unfold bind at 1 4, set_members. unfold bind at 1, get_members.
  cbn [self members]. unfold bind.
  destruct (b && (length ms =? 0)%nat) eqn:E; cbn [negb]; [| reflexivity].
  rewrite save_spec. cbn [self members]. rewrite E. reflexivity.
Qed.

(** A successful [remove] leaves the file in sync when the flag is off or
    the roster is still not empty; with the flag on and the roster emptied,
    nothing is written. *)
Lemma remove_ok_disk (b : bool) (name msg : str) (st st' : state) :
  remove b name st = (Return (OK, msg), st') ->
  if b && (length (members (self st')) =? 0)%nat
  then disk st' = disk st
  else in_sync st'.
Proof.
  unfold remove. intros H.
  unfold bind at 1 in H. unfold get_members at 1 in H.
  unfold bind at 1 in H.
  match type of H with
  | context [match ?c st with _ => _ end] =>
      assert (Hp : snd (c st) = st)
        by (destruct b; apply pure_first_index; auto with pure_db);
      destruct (c st) as [[[i |] | e] st1]; simpl in Hp; subst st1
  end.
  - rewrite remove_tail in H. apply commit_returned in H as [_ ->].
    unfold committed, in_sync. cbn [self members path disk].
    destruct (b && _); [reflexivity | apply lookup_insert_eq].
  - exfalso. exact (ret_err_not_ok _ _ _ _ H).
  - discriminate H.
Qed.

Lemma remove_off_in_sync (name msg : str) (st st' : state) :
  remove false name st = (Return (OK, msg), st') -> in_sync st'.
Proof. intros H. exact (remove_ok_disk false name msg st st' H). Qed.

(** ** [count] *)

Lemma count_spec (b : bool) (st : state) :
  count b st
  = (Return (if b then Z.max 0 (Z.of_nat (length (members (self st))) - 1)
             else Z.of_nat (length (members (self st)))),
     st).
Proof. reflexivity. Qed.

(** ** [list_all] and [list_by_role] with the flag off *)

(** With the flag off [list_all] touches nothing. *)
Lemma list_all_off_frame (st : state) : exec (list_all false) st = st.
Proof. apply list_all_exec. Qed.

(** With the flag off [list_by_role] returns the members whose role, in
    lower case, is the trimmed query in lower case, in ascending order of
    name. *)
Lemma list_by_role_off (role : str) (st : state) :
  let chosen :=
    List.filter
      (fun m => bool_decide (normalize_role (field (u "role") m)
                             = normalize_role (strip role)))
      (members (self st)) in
  Forall has_role (members (self st)) ->
  Forall has_name chosen ->
  list_by_role false role st = (Return (arranged false chosen), st).
Proof.
  intros chosen Hr Hn. unfold list_by_role. cbn [negb].
  unfold bind at 1. unfold get_members at 1. unfold bind at 1.
  change (fun m : member => mr <- getitem m (u "role") ;;
            ret (bool_decide (normalize_role mr = normalize_role (strip role))))
    with (test (u "role")
            (fun mr => bool_decide (normalize_role mr
                                    = normalize_role (strip role)))).
  rewrite comprehension_test by exact Hr. fold chosen.
  change (fun x : member => getitem x (u "name")) with by_name.
  apply sorted_by_name. exact Hn.
Qed.

Example list_by_role_off_finds_ivan :
  let st := exec (add false (u "Ivan") (u "Штурман")) fresh in
  result (list_by_role false (u "штурман")) st
  = Return [mk_member (u "Ivan") (u "штурман")].
Proof. run. Qed.

(** ** The uniqueness invariant with the flag off *)

Lemma name_key_mk_member (name role : str) :
  name_key (mk_member name role) = name.
Proof.
  unfold name_key, name_of, mk_member. rewrite lookup_insert_eq. reflexivity.
Qed.

Lemma has_name_mk_member (name role : str) : has_name (mk_member name role).
Proof.
  unfold has_name, name_of, mk_member. rewrite lookup_insert_eq. eauto.
Qed.

(** With the flag off, a roster whose members have names that differ under
    the case-insensitive key keeps that property across every successful
    [add]. *)
Lemma add_off_keeps_unique (name role msg : str) (st st' : state) :
  Forall has_name (members (self st)) ->
  NoDup (map name_id (members (self st))) ->
  add false name role st = (Return (OK, msg), st') ->
  Forall has_name (members (self st'))
  /\ NoDup (map name_id (members (self st'))).
Proof.
  intros Hn Hu H.
  destruct (decide (normalize_role (strip role) ∈ ROLES)) as [Hr | Hr];
    [| rewrite add_off_bad_role in H by exact Hr;
       exfalso; exact (ret_err_not_ok _ _ _ _ H)].
  destruct (fullmatch (Regex name_class 2 40) (normalize_name name)) eqn:Hm;
    [| rewrite add_off_bad_name in H by assumption;
       exfalso; exact (ret_err_not_ok _ _ _ _ H)].
  rewrite add_off_valid in H by assumption.
  rewrite any_test in H by exact Hn.
  destruct (existsb _ _) eqn:E; [exfalso; exact (ret_err_not_ok _ _ _ _ H) |].
  apply commit_returned in H as [_ ->]. rewrite committed_nonempty.
  cbn [self members]. split.
  - apply Forall_app. split; [exact Hn |].
    constructor; [apply has_name_mk_member | constructor].
  - rewrite map_app. apply NoDup_app. split; [exact Hu |]. split.
    + intros x Hx Hx'. simpl in Hx'. apply list_elem_of_singleton in Hx'.
      subst x. unfold name_id in Hx at 1.
      rewrite name_key_mk_member in Hx.
      apply list_elem_of_fmap in Hx as (m & Hid & Hin).
      apply not_true_iff_false in E. apply E. apply existsb_exists.
      exists m. split; [apply list_elem_of_In, Hin |].
      apply bool_decide_eq_true_2. symmetry. exact Hid.
    + simpl. apply NoDup_singleton.
Qed.

(** With the flag off the second of the two calls of C2 is refused. *)
Example add_off_refuses_ann_after_Ann :
  let st := exec (add false (u "Ann") (u "штурман")) fresh in
  add false (u "ann") (u "штурман") st
  = (Return (ERR, u "такое имя уже существует"), st).
Proof. run. Qed.

(** With the flag off removing the last member writes the empty roster. *)
Example remove_off_last_writes_empty :
  let st := exec (add false (u "Мария") (u "штурман") ;;;
                  remove false (u "Мария")) fresh in
  members (self st) = [] /\ disk st !! DATA_FILE = Some (Text (JList [])).
Proof. split; run. Qed.

(** * The command loop and further properties of the store *)

Example split_words :
  split (u "  add   Ann  штурман ") = [u "add"; u "Ann"; u "штурман"].
Proof. reflexivity. Qed.

Example repl_session :
  stdout (exec (repl BUG_MODE
                  [Typed (u "add Мария штурман"); Typed (u "list");
                   Typed (u "count"); Typed (u "remove Мария");
                   Typed (u "list"); Typed (u "exit"); Typed (u "count")])
            boot)
  = [banner;
     u "OK: добавлен " ++ dq ++ u "Мария" ++ dq ++ u " (штурман)";
     u "1) Мария — штурман";
     u "Всего участников: 0";
     u "OK: удалён " ++ dq ++ u "Мария" ++ dq;
     u "1) Мария — штурман"].
Proof. run. Qed.

(** ** Trimming and lower-casing *)

Lemma lstrip_head (s : str) :
  match lstrip s with
  | [] => True
  | c :: _ => isspace c = false
  end.
Proof.
  induction s as [| c r IH]; simpl; [exact I |].
  destruct (isspace c) eqn:E; [exact IH | exact E].
Qed.

Lemma lstrip_fixed (c : char) (r : str) :
  isspace c = false -> lstrip (c :: r) = c :: r.
Proof. intros H. simpl. rewrite H. reflexivity. Qed.

Lemma lstrip_app (a b : str) :
  lstrip (a ++ b)
  = match lstrip a with
    | [] => lstrip b
    | t => t ++ b
    end.
Proof.
  induction a as [| c r IH]; simpl; [destruct (lstrip b); reflexivity |].
  destruct (isspace c); [exact IH | reflexivity].
Qed.

(** [rstrip] read from the left. *)
Lemma rstrip_cons (c : char) (r : str) :
  rstrip (c :: r)
  = match rstrip r with
    | [] => if isspace c then [] else [c]
    | t => c :: t
    end.
Proof.
  unfold rstrip. rewrite reverse_cons, lstrip_app.
  destruct (lstrip (reverse r)) as [| d t] eqn:E.
  - simpl. destruct (isspace c); reflexivity.
  - rewrite reverse_app. simpl.
    destruct (reverse (d :: t)) as [| e t'] eqn:E'; [| reflexivity].
    apply (f_equal reverse) in E'. rewrite reverse_involutive in E'.
    discriminate E'.
Qed.

Lemma rstrip_idem (s : str) : rstrip (rstrip s) = rstrip s.
Proof.
  induction s as [| c r IH]; [reflexivity |].
  rewrite rstrip_cons. destruct (rstrip r) as [| d t] eqn:E.
  - destruct (isspace c) eqn:Ec; [reflexivity |].
    rewrite rstrip_cons. change (rstrip []) with (@nil char). simpl.
    rewrite Ec. reflexivity.
  - rewrite rstrip_cons, IH. reflexivity.
Qed.

(** Trimming on the right keeps a first character that is not whitespace. *)
Lemma rstrip_keeps_head (c : char) (r : str) :
  isspace c = false -> exists t, rstrip (c :: r) = c :: t.
Proof.
  intros H. rewrite rstrip_cons, H. destruct (rstrip r); eauto.
Qed.

Lemma strip_head (s : str) :
  match strip s with
  | [] => True
  | c :: _ => isspace c = false
  end.
Proof.
  unfold strip. pose proof (lstrip_head s) as H.
  destruct (lstrip s) as [| c r]; [exact I |].
  destruct (rstrip_keeps_head c r H) as [t ->]. exact H.
Qed.

Lemma lstrip_strip (s : str) : lstrip (strip s) = strip s.
Proof.
  pose proof (strip_head s) as H. destruct (strip s) as [| c r];
    [reflexivity | apply lstrip_fixed, H].
Qed.

Lemma strip_idem (s : str) : strip (strip s) = strip s.
Proof.
  unfold strip at 1. rewrite lstrip_strip. unfold strip. apply rstrip_idem.
Qed.

(** Comparisons of code points that the context decides. *)
Ltac decide_ranges :=
  repeat match goal with
    | |- context [N.leb ?a ?b] =>
        first [ rewrite (proj2 (N.leb_le a b)) by lia
              | rewrite (proj2 (N.leb_gt a b)) by lia ]
    | |- context [N.eqb ?a ?b] =>
        first [ rewrite (proj2 (N.eqb_eq a b)) by lia
              | rewrite (proj2 (N.eqb_neq a b)) by lia ]
    end.

(** The three ranges of capitals of [lower_char]. *)
Lemma lower_char_cases (c : char) :
  (65 <= c <= 90 /\ lower_char c = c + 32)
  \/ (1040 <= c <= 1071 /\ lower_char c = c + 32)
  \/ (1024 <= c <= 1039 /\ lower_char c = c + 80)
  \/ (~ 65 <= c <= 90 /\ ~ 1024 <= c <= 1071 /\ lower_char c = c).
Proof.
  unfold lower_char.
  destruct (N.leb_spec 65 c), (N.leb_spec c 90); simpl;
    try (left; split; [lia | reflexivity]);
    destruct (N.leb_spec 1040 c), (N.leb_spec c 1071); simpl;
    try (right; left; split; [lia | reflexivity]);
    destruct (N.leb_spec 1024 c), (N.leb_spec c 1039); simpl;
    try (right; right; left; split; [lia | reflexivity]);
    right; right; right; repeat split; lia.
Qed.

Lemma lower_char_idem (c : char) : lower_char (lower_char c) = lower_char c.
Proof.
  destruct (lower_char_cases c) as [[H ->] | [[H ->] | [[H ->] | (_ & _ & E)]]];
    [| | | rewrite E; exact E];
    unfold lower_char; decide_ranges; reflexivity.
Qed.

Lemma isspace_lower_char (c : char) : isspace (lower_char c) = isspace c.
Proof.
  destruct (lower_char_cases c) as [[H ->] | [[H ->] | [[H ->] | (_ & _ & E)]]];
    [| | | rewrite E; reflexivity];
    unfold isspace; decide_ranges; reflexivity.
Qed.

Lemma lower_idem (s : str) : lower (lower s) = lower s.
Proof.
  unfold lower. rewrite map_map. apply map_ext. apply lower_char_idem.
Qed.

Lemma lstrip_lower (s : str) : lstrip (lower s) = lower (lstrip s).
Proof.
  induction s as [| c r IH]; [reflexivity |].
  simpl. rewrite isspace_lower_char. destruct (isspace c); [exact IH | reflexivity].
Qed.

Lemma reverse_lower (s : str) : reverse (lower s) = lower (reverse s).
Proof. unfold lower. symmetry. apply (fmap_reverse lower_char). Qed.

Lemma strip_lower_comm (s : str) : strip (lower s) = lower (strip s).
Proof.
  unfold strip, rstrip.
  rewrite lstrip_lower, reverse_lower, lstrip_lower, reverse_lower. reflexivity.
Qed.

(** X1. [normalize_name] is idempotent, and what it returns neither begins
    nor ends with a whitespace character. *)
Theorem normalize_name_trims (value : str) :
  let n := normalize_name value in
  normalize_name n = n
  /\ from_option isspace false (head n) = false
  /\ from_option isspace false (last n) = false.
Proof.
  unfold normalize_name. repeat split.
  - apply strip_idem.
  - pose proof (strip_head value) as H.
    destruct (strip value); [reflexivity | exact H].
  - unfold strip, rstrip. rewrite last_reverse.
    pose proof (lstrip_head (reverse (lstrip value))) as H.
    destruct (lstrip (reverse (lstrip value))); [reflexivity | exact H].
Qed.

Lemma lower_domain_lower_char (c : char) :
  lower_domain c = true -> lower_domain (lower_char c) = true.
Proof.
  destruct (lower_char_cases c) as [[H ->] | [[H ->] | [[H ->] | (_ & _ & E)]]];
    [| | | rewrite E; exact id];
    intros _; unfold lower_domain; decide_ranges; reflexivity.
Qed.

Lemma in_lower_domain_lower (s : str) :
  in_lower_domain s -> in_lower_domain (lower s).
Proof.
  unfold in_lower_domain, lower. intros H. apply Forall_fmap.
  eapply Forall_impl; [exact H |]. exact lower_domain_lower_char.
Qed.

Lemma Forall_lstrip (P : char -> Prop) (s : str) :
  Forall P s -> Forall P (lstrip s).
Proof.
  induction 1 as [| c r Hc Hr IH]; simpl; [constructor |].
  destruct (isspace c); [exact IH | constructor; assumption].
Qed.

Lemma Forall_strip (P : char -> Prop) (s : str) :
  Forall P s -> Forall P (strip s).
Proof.
  intros H. unfold strip, rstrip.
  apply Forall_reverse, Forall_lstrip, Forall_reverse, Forall_lstrip, H.
Qed.

(** X2. On strings of Basic Latin, Cyrillic U+0400..U+045F and whitespace,
    where the lower-casing of the model is that of [str.lower]:
    [normalize_role] and [normalize_name_key] are idempotent, the key of a
    name is the key of the trimmed name (lower-casing and trimming
    commute), and the normalised string consists of such code points
    again. *)
Theorem normalize_role_idem (value : str) :
  in_lower_domain value ->
  normalize_role (normalize_role value) = normalize_role value
  /\ normalize_name_key (normalize_name_key value) = normalize_name_key value
  /\ normalize_name_key (normalize_name value) = normalize_name_key value
  /\ in_lower_domain (normalize_role value).
Proof.
  intros H. unfold normalize_role, normalize_name_key, normalize_name.
  rewrite strip_lower_comm, strip_idem, lower_idem.
  repeat apply conj; try reflexivity.
  apply in_lower_domain_lower, Forall_strip, H.
Qed.

Lemma normalize_role_idem_witness :
  normalize_role (normalize_role (u "  МЕХАНИК Ёж-Zz "))
  = normalize_role (u "  МЕХАНИК Ёж-Zz ")
  /\ normalize_name_key (normalize_name_key (u "  МЕХАНИК Ёж-Zz "))
     = normalize_name_key (u "  МЕХАНИК Ёж-Zz ")
  /\ normalize_name_key (normalize_name (u "  МЕХАНИК Ёж-Zz "))
     = normalize_name_key (u "  МЕХАНИК Ёж-Zz ")
  /\ in_lower_domain (normalize_role (u "  МЕХАНИК Ёж-Zz ")).
Proof.
  apply (normalize_role_idem (u "  МЕХАНИК Ёж-Zz ")).
  refine (bool_decide_unpack _ _). vm_compute. exact I.
Defined.

(** ** Splitting a line into words *)

Lemma split_from_tokens (cur s : str) :
  Forall (fun c => isspace c = false) cur ->
  Forall (fun t => t <> [] /\ Forall (fun c => isspace c = false) t)
         (split_from cur s).
Proof.
  revert cur. induction s as [| c r IH]; intros cur Hc; simpl.
  - destruct cur; constructor; [split; [discriminate | exact Hc] | constructor].
  - destruct (isspace c) eqn:E.
    + destruct cur as [| d t]; [apply IH; constructor |].
      constructor; [split; [discriminate | exact Hc] | apply IH; constructor].
    + apply IH. apply Forall_app. split; [exact Hc |]. repeat constructor. exact E.
Qed.

Lemma split_from_nonempty (cur s : str) : cur <> [] -> split_from cur s <> [].
Proof.
  revert cur. induction s as [| c r IH]; intros cur Hc; simpl.
  - destruct cur; [contradiction | discriminate].
  - destruct (isspace c).
    + destruct cur; [contradiction | discriminate].
    + apply IH. destruct cur; discriminate.
Qed.

(** X3. The words of a line are not empty and hold no whitespace, and a
    trimmed line has no word exactly when it is empty, so the [parts[0]] of
    the command loop is always in range. *)
Theorem split_words_of_line (typed : str) :
  Forall (fun t => t <> [] /\ Forall (fun c => isspace c = false) t)
         (split (strip typed))
  /\ if decide (strip typed = []) then split (strip typed) = []
     else split (strip typed) <> [].
Proof.
  split.
  - apply split_from_tokens. constructor.
  - pose proof (strip_head typed) as H.
    destruct (decide (strip typed = [])) as [-> | Hne]; [reflexivity |].
    destruct (strip typed) as [| c r]; [contradiction |].
    unfold split. simpl. rewrite H. apply split_from_nonempty. discriminate.
Qed.

(** ** [remove] *)

Lemma first_index_absent (key : str) (p : str -> bool) (l : list member)
    (i : nat) (st : state) :
  Forall (fun m => is_Some (m !! key)) l ->
  Forall (fun m => p (field key m) = false) l ->
  first_index (test key p) l i st = (Return None, st).
Proof.
  intros H. revert i. induction H as [| m r Hm _ IH]; intros i Hp; simpl.
  - reflexivity.
  - apply Forall_cons in Hp as [Hp1 Hp2].
    unfold bind at 1. rewrite (test_has key p m st Hm), Hp1. apply IH, Hp2.
Qed.


Lemma any_found (key : str) (p : str -> bool)
    (l1 l2 : list member) (m : member) (st : state) :
  Forall (fun x => is_Some (x !! key)) l1 ->
  is_Some (m !! key) ->
  p (field key m) = true ->
  any (test key p) (l1 ++ m :: l2) st = (Return true, st).
Proof.
  intros H Hm Hpm. induction H as [| x r Hx _ IH]; simpl.
  - unfold bind at 1. rewrite (test_has key p m st Hm), Hpm. reflexivity.
  - unfold bind at 1. rewrite (test_has key p x st Hx).
    destruct (p (field key x)); [reflexivity | exact IH].
Qed.

Lemma any_missing_key (key : str) (p : str -> bool)
    (l1 l2 : list member) (m : member) (st : state) :
  Forall (fun x => is_Some (x !! key)) l1 ->
  Forall (fun x => p (field key x) = false) l1 ->
  m !! key = None ->
  any (test key p) (l1 ++ m :: l2) st = (Raise (KeyError key), st).
Proof.
  intros H Hp Hm. induction H as [| x r Hx _ IH]; simpl.
  - unfold bind at 1, test, bind, getitem. rewrite Hm. reflexivity.
  - apply Forall_cons in Hp as [Hp1 Hp2].
    unfold bind at 1. rewrite (test_has key p x st Hx), Hp1. exact (IH Hp2).
Qed.

(** X4. Whatever the flag, when [remove] returns ["ERR"], or when its scan
    of the roster raises [KeyError], the store, the file system and the
    output are as before the call: both come before the deletion. *)
Theorem remove_fails_changes_nothing (b : bool) (name : str) (st st' : state)
    (r : outcome (str * str)) :
  remove b name st = (r, st') ->
  quiet r ->
  st' = st.
Proof.
  unfold remove. intros H Hr.
  unfold bind at 1 in H. unfold get_members at 1 in H.
  unfold bind at 1 in H.
  match type of H with
  | context [match ?c st with _ => _ end] =>
      assert (Hp : snd (c st) = st)
        by (destruct b; apply pure_first_index; auto with pure_db);
      destruct (c st) as [[[i |] | e] st1]; simpl in Hp; subst st1
  end.
  - exfalso. rewrite remove_tail in H. unfold bind at 1, set_members in H.
    eapply quiet_commit; [| exact Hr].
    eapply (commit_outcome b (save b)); [left; reflexivity | exact H].
  - inversion H; reflexivity.
  - inversion H; reflexivity.
Qed.

Lemma remove_fails_changes_nothing_witness :
  exec (remove BUG_MODE (u "Ann")) three_members = three_members.
Proof.
  apply (remove_fails_changes_nothing BUG_MODE (u "Ann") three_members _
           (result (remove BUG_MODE (u "Ann")) three_members)).
  - vm_compute. reflexivity.
  - vm_compute. reflexivity.
Defined.

(** X5. [remove] of a name that no member bears, letter for letter, returns
    ["ERR"] with the message that quotes the trimmed name, and changes
    nothing. *)
Theorem remove_absent_name (name : str) (st : state) :
  Forall has_name (members (self st)) ->
  Forall (fun m => name_key m <> normalize_name name) (members (self st)) ->
  remove BUG_MODE name st
  = (Return (ERR, u "запись с именем " ++ dq ++ normalize_name name ++ dq
                  ++ u " не найдена"),
     st).
Proof.
  intros Hn Ha. unfold remove, BUG_MODE.
  unfold bind at 1. unfold get_members at 1. unfold bind at 1.
  change (fun m : member => n <- getitem m (u "name") ;;
            ret (bool_decide (n = normalize_name name)))
    with (test (u "name") (fun n => bool_decide (n = normalize_name name))).
  rewrite first_index_absent; [reflexivity | exact Hn |].
  eapply Forall_impl; [exact Ha |]. intros m Hm.
  apply bool_decide_eq_false_2. exact Hm.
Qed.

Lemma remove_absent_name_witness :
  remove BUG_MODE (u " ANNA ") three_members
  = (Return (ERR, u "запись с именем " ++ dq ++ u "ANNA" ++ dq
                  ++ u " не найдена"),
     three_members).
Proof.
  apply (remove_absent_name (u " ANNA ") three_members).
  - refine (bool_decide_unpack _ _). vm_compute. exact I.
  - refine (bool_decide_unpack _ _). vm_compute. exact I.
Defined.




(** ** What can be written *)

(** What [add] stores can be encoded: a name of the name class, a role
    whose lower case is in the role set. *)
Lemma name_class_not_surrogate (c : char) :
  name_class c = true -> surrogate c = false.
Proof.
  intros H. unfold surrogate. destruct (N.leb_spec 55296 c) as [Hc | Hc];
    [| reflexivity].
  exfalso. revert H. unfold name_class. decide_ranges. discriminate.
Qed.

Lemma encodable_name (lo' hi' : nat) (n : str) :
  fullmatch (Regex name_class lo' hi') n = true -> encodable n = true.
Proof.
  intros H. apply fullmatch_spec in H as [H _]. unfold encodable.
  apply forallb_forall. intros c Hc. rewrite Forall_forall in H.
  rewrite name_class_not_surrogate; [reflexivity |].
  apply H, list_elem_of_In, Hc.
Qed.

Lemma surrogate_lower_char (c : char) : surrogate (lower_char c) = surrogate c.
Proof.
  destruct (lower_char_cases c) as [[H ->] | [[H ->] | [[H ->] | (_ & _ & E)]]];
    [| | | rewrite E; reflexivity];
    unfold surrogate; decide_ranges; reflexivity.
Qed.

Lemma encodable_lower (s : str) : encodable (lower s) = encodable s.
Proof.
  unfold encodable, lower. induction s as [| c r IH]; [reflexivity |].
  simpl. rewrite surrogate_lower_char, IH. reflexivity.
Qed.

Lemma encodable_role (r : str) : lower r ∈ ROLES -> encodable r = true.
Proof.
  intros H. rewrite <- encodable_lower.
  assert (A : Forall (fun x => encodable x = true) ROLES)
    by (refine (bool_decide_unpack _ _); vm_compute; exact I).
  rewrite Forall_forall in A. apply A, H.
Qed.

Lemma encodable_mk_member (name role : str) :
  encodable name = true -> encodable role = true ->
  encodable_member (mk_member name role).
Proof.
  intros Hn Hr. unfold encodable_member, mk_member.
  apply map_Forall_insert_2; [split; [vm_compute; reflexivity | exact Hn] |].
  apply map_Forall_insert_2; [split; [vm_compute; reflexivity | exact Hr] |].
  apply map_Forall_empty.
Qed.

(** ** [add] as configured *)

(** Once the role and the name have passed validation, [add] is decided by
    the scan of the roster. *)
Lemma add_on_valid (name role : str) (st : state) :
  lower (strip role) ∈ ROLES ->
  fullmatch (Regex name_class 0 40) (normalize_name name) = true ->
  add true name role st
  = match any (same_name (normalize_name name)) (members (self st)) st with
    | (Return true, st1) => (Return (ERR, u "такое имя уже существует"), st1)
    | (Return false, st1) =>
        (set_members
           (members (self st) ++ [mk_member (normalize_name name) (strip role)]) ;;;
         save true ;;;
         ret (OK, u "добавлен " ++ dq ++ normalize_name name ++ dq ++ u " ("
                  ++ strip role ++ u ")")) st1
    | (Raise e, st1) => (Raise e, st1)
    end.
Proof.
  intros Hr Hn. unfold add. rewrite (bool_decide_eq_true_2 _ Hr). cbn [negb].
  rewrite Hn. cbn [negb].
  unfold bind at 1. unfold get_members at 1. unfold bind at 1.
  fold (same_name (normalize_name name)).
  destruct (any _ _ st) as [[[|] | e] st1]; reflexivity.
Qed.

Lemma appended_committed (b : bool) (st : state) (m : member) :
  committed b (members (self st) ++ [m]) st = appended st m.
Proof. rewrite committed_nonempty. reflexivity. Qed.

(** X7. A successful [add] has passed both validations and has appended
    exactly one member at the end of the roster, with the trimmed name and
    the trimmed role as typed, and has written the new roster to the data
    file; the message quotes that name and role. *)
Theorem add_ok_effect (name role msg : str) (st st' : state) :
  add BUG_MODE name role st = (Return (OK, msg), st') ->
  lower (strip role) ∈ ROLES
  /\ fullmatch (Regex name_class 0 40) (normalize_name name) = true
  /\ msg = u "добавлен " ++ dq ++ normalize_name name ++ dq ++ u " ("
           ++ strip role ++ u ")"
  /\ st' = appended st (mk_member (normalize_name name) (strip role)).
Proof.
  intros H. unfold BUG_MODE in H.
  destruct (decide (lower (strip role) ∈ ROLES)) as [Hr | Hr];
    [| rewrite add_on_bad_role in H by exact Hr;
       exfalso; exact (ret_err_not_ok _ _ _ _ H)].
  destruct (fullmatch (Regex name_class 0 40) (normalize_name name)) eqn:Hn;
    [| rewrite add_on_bad_name in H by assumption;
       exfalso; exact (ret_err_not_ok _ _ _ _ H)].
  rewrite add_on_valid in H by assumption.
  pose proof (pure_any (same_name (normalize_name name)) (members (self st))
                (pure_field_test _ _) st) as Hp.
  destruct (any _ _ st) as [[[|] | e] st1]; simpl in Hp; subst st1.
  - exfalso. exact (ret_err_not_ok _ _ _ _ H).
  - apply commit_returned in H as [E ->]. rewrite appended_committed.
    inversion E. auto.
  - discriminate H.
Qed.

Lemma add_ok_effect_witness :
  lower (strip (u " Механик")) ∈ ROLES
  /\ fullmatch (Regex name_class 0 40) (normalize_name (u "Олег ")) = true
  /\ u "добавлен " ++ dq ++ u "Олег" ++ dq ++ u " (Механик)"
     = u "добавлен " ++ dq ++ normalize_name (u "Олег ") ++ dq ++ u " ("
       ++ strip (u " Механик") ++ u ")"
  /\ exec (add BUG_MODE (u "Олег ") (u " Механик")) three_members
     = appended three_members
         (mk_member (normalize_name (u "Олег ")) (strip (u " Механик"))).
Proof.
  apply (add_ok_effect (u "Олег ") (u " Механик")
           (u "добавлен " ++ dq ++ u "Олег" ++ dq ++ u " (Механик)")
           three_members
           (exec (add BUG_MODE (u "Олег ") (u " Механик")) three_members)).
  vm_compute. reflexivity.
Defined.

(** X8. [add] accepts every name of at most 40 characters of the name class
    that no member bears letter for letter, with any spelling of a role of
    the role set: it returns ["OK"] and appends the member, the role stored
    as typed.  This is the case where the write succeeds: the path can be
    opened for writing and the roster holds no lone surrogate. *)
Theorem add_accepts_fresh_name (name role : str) (st : state) :
  lower (strip role) ∈ ROLES ->
  fullmatch (Regex name_class 0 40) (normalize_name name) = true ->
  Forall has_name (members (self st)) ->
  Forall (fun m => name_key m <> normalize_name name) (members (self st)) ->
  path (self st) ∉ locked st ->
  Forall encodable_member (members (self st)) ->
  add BUG_MODE name role st
  = (Return (OK, u "добавлен " ++ dq ++ normalize_name name ++ dq ++ u " ("
                 ++ strip role ++ u ")"),
     appended st (mk_member (normalize_name name) (strip role))).
Proof.
  intros Hr Hn Hms Hf Hp He. unfold BUG_MODE.
  rewrite add_on_valid by assumption.
  unfold same_name. rewrite any_test by exact Hms.
  replace (existsb _ _) with false.
  - rewrite commit_ok; [rewrite appended_committed; reflexivity | exact Hp |].
    apply Forall_app. split; [exact He |]. constructor; [| constructor].
    apply encodable_mk_member;
      [eapply encodable_name; exact Hn | apply encodable_role, Hr].
  - symmetry. apply not_true_is_false. intros E.
    apply existsb_exists in E as (m & Hm & Hid).
    apply bool_decide_eq_true_1 in Hid.
    rewrite Forall_forall in Hf. apply (Hf m); [| exact Hid].
    apply list_elem_of_In, Hm.
Qed.

Lemma add_accepts_fresh_name_witness :
  add BUG_MODE (u "ANNA") (u "ВОДИТЕЛЬ") three_members
  = (Return (OK, u "добавлен " ++ dq ++ normalize_name (u "ANNA") ++ dq
                 ++ u " (" ++ strip (u "ВОДИТЕЛЬ") ++ u ")"),
     appended three_members
       (mk_member (normalize_name (u "ANNA")) (strip (u "ВОДИТЕЛЬ")))).
Proof.
  apply (add_accepts_fresh_name (u "ANNA") (u "ВОДИТЕЛЬ") three_members).
  - refine (bool_decide_unpack _ _). vm_compute. exact I.
  - vm_compute. reflexivity.
  - refine (bool_decide_unpack _ _). vm_compute. exact I.
  - refine (bool_decide_unpack _ _). vm_compute. exact I.
  - refine (bool_decide_unpack _ _). vm_compute. exact I.
  - refine (bool_decide_unpack _ _). vm_compute. exact I.
Defined.

(** X25. [add] appends before it saves, and [save] has no handler: when the
    data file cannot be opened for writing, [add] of a valid name that no
    member bears raises [OSError] with the member already appended to the
    roster in memory, while the file system is as before; nothing is
    printed. *)
Theorem add_raises_after_append (name role : str) (st : state) :
  lower (strip role) ∈ ROLES ->
  fullmatch (Regex name_class 0 40) (normalize_name name) = true ->
  Forall has_name (members (self st)) ->
  Forall (fun m => name_key m <> normalize_name name) (members (self st)) ->
  path (self st) ∈ locked st ->
  add BUG_MODE name role st
  = (Raise OSError,
     mkState
       (mkStore (path (self st))
          (members (self st) ++ [mk_member (normalize_name name) (strip role)]))
       (disk st) (stdout st) (locked st)).
Proof.
  intros Hr Hn Hms Hf Hp. unfold BUG_MODE.
  rewrite add_on_valid by assumption.
  unfold same_name. rewrite any_test by exact Hms.
  replace (existsb _ _) with false.
  - unfold bind at 1, set_members. unfold bind at 1. rewrite save_spec.
    cbn [self members path disk stdout locked].
    rewrite length_app. cbn [length].
    replace (_ + 1 =? 0)%nat with false by (symmetry; apply Nat.eqb_neq; lia).
    rewrite andb_false_r. unfold write_json.
    cbn [self members path disk stdout locked].
    rewrite (bool_decide_eq_true_2 _ Hp). reflexivity.
  - symmetry. apply not_true_is_false. intros E.
    apply existsb_exists in E as (m & Hm & Hid).
    apply bool_decide_eq_true_1 in Hid.
    rewrite Forall_forall in Hf. apply (Hf m); [| exact Hid].
    apply list_elem_of_In, Hm.
Qed.

Lemma add_raises_after_append_witness :
  add BUG_MODE (u "Олег") (u "грузчик") read_only_three
  = (Raise OSError,
     mkState
       (mkStore DATA_FILE
          (members (self three_members)
           ++ [mk_member (normalize_name (u "Олег")) (strip (u "грузчик"))]))
       (disk three_members) (stdout three_members) {[DATA_FILE]}).
Proof.
  apply (add_raises_after_append (u "Олег") (u "грузчик") read_only_three).
  - refine (bool_decide_unpack _ _). vm_compute. exact I.
  - vm_compute. reflexivity.
  - refine (bool_decide_unpack _ _). vm_compute. exact I.
  - refine (bool_decide_unpack _ _). vm_compute. exact I.
  - refine (bool_decide_unpack _ _). vm_compute. exact I.
Defined.

(** X9. [add] of a valid name that a member already bears letter for letter
    returns ["ERR"] with the duplicate message and changes nothing; only the
    members up to the first such member are looked at. *)
Theorem add_rejects_exact_duplicate (name role : str) (st : state)
    (l1 l2 : list member) (m : member) :
  lower (strip role) ∈ ROLES ->
  fullmatch (Regex name_class 0 40) (normalize_name name) = true ->
  members (self st) = l1 ++ m :: l2 ->
  Forall has_name l1 ->
  name_of m = Some (normalize_name name) ->
  add BUG_MODE name role st = (Return (ERR, u "такое имя уже существует"), st).
Proof.
  intros Hr Hn Hms Hl1 Hm. unfold BUG_MODE. rewrite add_on_valid by assumption.
  rewrite Hms. unfold same_name. rewrite any_found; [reflexivity | exact Hl1 | |].
  - unfold name_of in Hm. rewrite Hm. eauto.
  - apply bool_decide_eq_true_2. change (field (u "name") m) with (name_key m).
    unfold name_key. rewrite Hm. reflexivity.
Qed.

Lemma add_rejects_exact_duplicate_witness :
  add BUG_MODE (u " anna") (u "грузчик") three_members
  = (Return (ERR, u "такое имя уже существует"), three_members).
Proof.
  apply (add_rejects_exact_duplicate (u " anna") (u "грузчик") three_members
           [mk_member (u "Zoya") (u "штурман")]
           [mk_member (u "Boris") (u "механик")]
           (mk_member (u "anna") (u "водитель"))).
  - refine (bool_decide_unpack _ _). vm_compute. exact I.
  - vm_compute. reflexivity.
  - vm_compute. reflexivity.
  - refine (bool_decide_unpack _ _). vm_compute. exact I.
  - vm_compute. reflexivity.
Defined.

(** X10. A record without the key ["name"] in the roster makes [add] of a
    valid name that no earlier member bears raise [KeyError], with the
    state unchanged: such a record, loaded from the data file, blocks every
    new member. *)
Theorem add_raises_on_nameless_record (name role : str) (st : state)
    (l1 l2 : list member) (m : member) :
  lower (strip role) ∈ ROLES ->
  fullmatch (Regex name_class 0 40) (normalize_name name) = true ->
  members (self st) = l1 ++ m :: l2 ->
  Forall has_name l1 ->
  Forall (fun x => name_key x <> normalize_name name) l1 ->
  name_of m = None ->
  add BUG_MODE name role st = (Raise (KeyError (u "name")), st).
Proof.
  intros Hr Hn Hms Hl1 Hf Hm. unfold BUG_MODE.
  rewrite add_on_valid by assumption.
  rewrite Hms. unfold same_name.
  rewrite any_missing_key; [reflexivity | exact Hl1 | | exact Hm].
  eapply Forall_impl; [exact Hf |]. intros x Hx.
  apply bool_decide_eq_false_2. exact Hx.
Qed.

Lemma add_raises_on_nameless_record_witness :
  add BUG_MODE (u "Boris") (u "механик") nameless_second
  = (Raise (KeyError (u "name")), nameless_second).
Proof.
  apply (add_raises_on_nameless_record (u "Boris") (u "механик")
           nameless_second [mk_member (u "Zoya") (u "штурман")] []
           {[u "role" := u "механик"]}).
  - refine (bool_decide_unpack _ _). vm_compute. exact I.
  - vm_compute. reflexivity.
  - vm_compute. reflexivity.
  - refine (bool_decide_unpack _ _). vm_compute. exact I.
  - refine (bool_decide_unpack _ _). vm_compute. exact I.
  - vm_compute. reflexivity.
Defined.

(** X11. [add] keeps the names of the roster pairwise different letter for
    letter: when every member has a name and no two names are equal, the
    same holds after every successful [add]. *)
Theorem add_keeps_names_distinct (name role msg : str) (st st' : state) :
  Forall has_name (members (self st)) ->
  NoDup (names (members (self st))) ->
  add BUG_MODE name role st = (Return (OK, msg), st') ->
  Forall has_name (members (self st'))
  /\ NoDup (names (members (self st'))).
Proof.
  intros Hn Hu H. unfold BUG_MODE in H.
  destruct (decide (lower (strip role) ∈ ROLES)) as [Hr | Hr];
    [| rewrite add_on_bad_role in H by exact Hr;
       exfalso; exact (ret_err_not_ok _ _ _ _ H)].
  destruct (fullmatch (Regex name_class 0 40) (normalize_name name)) eqn:Hv;
    [| rewrite add_on_bad_name in H by assumption;
       exfalso; exact (ret_err_not_ok _ _ _ _ H)].
  rewrite add_on_valid in H by assumption.
  unfold same_name in H. rewrite any_test in H by exact Hn.
  destruct (existsb _ _) eqn:E; [exfalso; exact (ret_err_not_ok _ _ _ _ H) |].
  apply commit_returned in H as [_ ->]. rewrite appended_committed.
  cbn [appended self members]. split.
  - apply Forall_app. split; [exact Hn |].
    constructor; [apply has_name_mk_member | constructor].
  - unfold names. rewrite map_app. apply NoDup_app. split; [exact Hu |]. split.
    + intros x Hx Hx'. simpl in Hx'. apply list_elem_of_singleton in Hx'.
      subst x. rewrite name_key_mk_member in Hx.
      apply list_elem_of_fmap in Hx as (m & Hm1 & Hm2).
      apply not_true_iff_false in E. apply E. apply existsb_exists.
      exists m. split; [apply list_elem_of_In, Hm2 |].
      apply bool_decide_eq_true_2. symmetry. exact Hm1.
    + simpl. apply NoDup_singleton.
Qed.

Lemma add_keeps_names_distinct_witness :
  Forall has_name
    (members (self (exec (add BUG_MODE (u "Anna") (u "грузчик")) three_members)))
  /\ NoDup (names
       (members (self (exec (add BUG_MODE (u "Anna") (u "грузчик"))
                         three_members)))).
Proof.
  apply (add_keeps_names_distinct (u "Anna") (u "грузчик")
           (u "добавлен " ++ dq ++ u "Anna" ++ dq ++ u " (грузчик)")
           three_members).
  - refine (bool_decide_unpack _ _). vm_compute. exact I.
  - refine (bool_decide_unpack _ _). vm_compute. exact I.
  - vm_compute. reflexivity.
Defined.

(** ** Round trips through the data file *)

(** X12. After every successful [add], under either setting of the flag, a
    store constructed on the same data file holds exactly the roster of the
    running store. *)
Theorem add_ok_then_reload (b : bool) (name role msg : str) (st st' : state) :
  add b name role st = (Return (OK, msg), st') ->
  members (self (exec (init (path (self st'))) st')) = members (self st').
Proof. intros H. apply in_sync_reload. exact (add_ok_in_sync _ _ _ _ _ _ H). Qed.

Lemma add_ok_then_reload_witness :
  let st' := exec (add BUG_MODE (u "Олег") (u "механик")) three_members in
  members (self (exec (init (path (self st'))) st')) = members (self st').
Proof.
  intros st'.
  apply (add_ok_then_reload BUG_MODE (u "Олег") (u "механик")
           (u "добавлен " ++ dq ++ u "Олег" ++ dq ++ u " (механик)")
           three_members st').
  vm_compute. reflexivity.
Defined.

(** X13. After a successful [remove] that leaves the roster not empty, or
    with the flag off, a store constructed on the same data file holds
    exactly the roster of the running store; with the flag on and the
    roster emptied, the file system is as it was before the call. *)
Theorem remove_ok_then_reload (b : bool) (name msg : str) (st st' : state) :
  remove b name st = (Return (OK, msg), st') ->
  if b && (length (members (self st')) =? 0)%nat
  then disk st' = disk st
  else members (self (exec (init (path (self st'))) st')) = members (self st').
Proof.
  intros H. pose proof (remove_ok_disk b name msg st st' H) as D.
  destruct (b && _); [exact D | apply in_sync_reload, D].
Qed.

Lemma remove_ok_then_reload_witness :
  let st' := exec (remove BUG_MODE (u "Zoya")) three_members in
  members (self (exec (init (path (self st'))) st')) = members (self st').
Proof.
  intros st'.
  apply (remove_ok_then_reload BUG_MODE (u "Zoya")
           (u "удалён " ++ dq ++ u "Zoya" ++ dq) three_members st').
  vm_compute. reflexivity.
Defined.

(** ** [list_by_role] *)

(** X15. [list_by_role] never changes the store, the file system or the
    output, under either setting of the flag and also when it raises. *)
Theorem list_by_role_changes_nothing (b : bool) (role : str) (st : state) :
  exec (list_by_role b role) st = st.
Proof.
  unfold exec, list_by_role.
  apply pure_bind; [apply pure_get_members |]. intros ms.
  apply pure_bind.
  - destruct b; apply pure_comprehension; intros x; apply pure_field_test.
  - intros items. apply pure_sorted. intros x. apply pure_getitem.
Qed.

(** X16. [list_by_role] returns the members whose stored role is the
    trimmed query letter for letter, each once, by descending name under
    the comparison of code points; members of equal name keep their order.
    It returns normally when every member has a role and the chosen ones
    have a name. *)
Theorem list_by_role_exact_descending (role : str) (st : state) :
  let chosen :=
    filter (fun m => role_of m = Some (strip role)) (members (self st)) in
  Forall has_role (members (self st)) ->
  Forall has_name chosen ->
  exists items,
    result (list_by_role BUG_MODE role) st = Return items
    /\ items ≡ₚ chosen
    /\ StronglySorted (flip str_le) (names items)
    /\ forall k : str,
         filter (fun m => name_of m = Some k) items
         = filter (fun m => name_of m = Some k) chosen.
Proof.
  intros chosen Hr Hn. exists (arranged true chosen).
  split; [| split; [apply arranged_perm |
            split; [exact (arranged_sorted true chosen) |
                    intros k; apply arranged_stable, Hn]]].
  unfold result, list_by_role, BUG_MODE. cbn [negb].
  unfold bind at 1. unfold get_members at 1. unfold bind at 1.
  change (fun m : member => mr <- getitem m (u "role") ;;
            ret (bool_decide (mr = strip role)))
    with (test (u "role") (fun mr => bool_decide (mr = strip role))).
  rewrite comprehension_test by exact Hr.
  assert (E : List.filter
                (fun m => bool_decide (field (u "role") m = strip role))
                (members (self st)) = chosen).
  { unfold chosen. clear Hn. induction Hr as [| m r [v Hv] _ IH];
      [reflexivity |].
    cbn [List.filter]. rewrite filter_cons, IH.
    assert (F : field (u "role") m = v)
      by (change (field (u "role") m) with (default [] (role_of m));
          rewrite Hv; reflexivity).
    rewrite F. destruct (decide (role_of m = Some (strip role))) as [D | D].
    - rewrite Hv in D. injection D as ->.
      rewrite bool_decide_eq_true_2 by reflexivity. reflexivity.
    - rewrite Hv in D. rewrite bool_decide_eq_false_2; [reflexivity |].
      intros ->. apply D. reflexivity. }
  rewrite E. change (fun x : member => getitem x (u "name")) with by_name.
  rewrite (sorted_by_name chosen true st Hn). reflexivity.
Qed.

Lemma list_by_role_exact_descending_witness :
  exists items,
    result (list_by_role BUG_MODE (u " штурман ")) three_members = Return items
    /\ items ≡ₚ filter (fun m => role_of m = Some (strip (u " штурман ")))
                  (members (self three_members))
    /\ StronglySorted (flip str_le) (names items)
    /\ forall k : str,
         filter (fun m => name_of m = Some k) items
         = filter (fun m => name_of m = Some k)
             (filter (fun m => role_of m = Some (strip (u " штурман ")))
                (members (self three_members))).
Proof.
  apply (list_by_role_exact_descending (u " штурман ") three_members).
  - refine (bool_decide_unpack _ _). vm_compute. exact I.
  - refine (bool_decide_unpack _ _). vm_compute. exact I.
Defined.

(** ** [print_list] *)

Lemma printed_nil (st : state) : printed st [] = st.
Proof. unfold printed. rewrite app_nil_r. destruct st; reflexivity. Qed.

Lemma printed_app (st : state) (l1 l2 : list str) :
  printed (printed st l1) l2 = printed st (l1 ++ l2).
Proof. unfold printed. cbn [self disk stdout]. rewrite app_assoc. reflexivity. Qed.

Lemma print_eq (line : str) (st : state) :
  print line st = (Return tt, printed st [line]).
Proof. reflexivity. Qed.

Lemma print_item_head (m : member) (r : list member) (i : nat) (st : state) :
  wf_member m ->
  print_items (m :: r) i st = print_items r (S i) (printed st [line_of i m]).
Proof.
  intros [[n Hn] [ro Hro]]. cbn [print_items].
  unfold bind at 1. unfold getitem at 1. unfold name_of in Hn.
  destruct (m !! u "name") as [n' |] eqn:En; [| discriminate].
  cbn [ret]. unfold bind at 1. unfold getitem at 1. unfold role_of in Hro.
  destruct (m !! u "role") as [ro' |] eqn:Er; [| discriminate].
  cbn [ret]. unfold bind at 1. rewrite print_eq.
  unfold line_of. change (field (u "role") m) with (default [] (role_of m)).
  unfold name_key, name_of, role_of. rewrite En, Er. reflexivity.
Qed.

Lemma print_items_lines (items : list member) (i : nat) (st : state) :
  Forall wf_member items ->
  print_items items i st
  = (Return tt, printed st (imap (fun k m => line_of (i + k) m) items)).
Proof.
  intros H. revert i st. induction H as [| m r Hm _ IH]; intros i st.
  - simpl. rewrite printed_nil. reflexivity.
  - rewrite (print_item_head m r i st Hm), IH, printed_app.
    cbn [imap app]. rewrite Nat.add_0_r. do 3 f_equal.
    apply imap_ext. intros k x _. simpl. f_equal. lia.
Qed.


Lemma print_list_eq (items : list member) (st : state) :
  Forall wf_member items ->
  print_list items st
  = (Return tt,
     printed st
       match items with
       | [] => [u "нет записей"]
       | _ => imap (fun k m => line_of (S k) m) items
       end).
Proof.
  intros H. destruct items as [| m r]; [reflexivity |].
  unfold print_list. rewrite print_items_lines by exact H. reflexivity.
Qed.





(** ** Sound records on a writable file: what no operation breaks *)

Lemma safe_ret {A} (a : A) (Q : A -> Prop) : Q a -> safe (ret a) Q.
Proof. intros HQ st Hst. exists a, st. auto. Qed.

Lemma safe_bind {A B} (c : M A) (k : A -> M B) (Q : A -> Prop)
    (R : B -> Prop) :
  safe c Q -> (forall a, Q a -> safe (k a) R) -> safe (bind c k) R.
Proof.
  intros Hc Hk st Hst. destruct (Hc st Hst) as (a & st1 & E & H1 & P1 & Qa).
  destruct (Hk a Qa st1 H1) as (b & st2 & E2 & H2 & P2 & Rb).
  exists b, st2. split; [unfold bind; rewrite E; exact E2 |].
  split; [exact H2 |]. split; [congruence | exact Rb].
Qed.

Lemma safe_print {Q : unit -> Prop} (line : str) : Q tt -> safe (print line) Q.
Proof.
  intros HQ st Hst. exists tt, (printed st [line]).
  split; [reflexivity |]. split; [exact Hst |]. split; [reflexivity | exact HQ].
Qed.

Lemma safe_print_all (lines : list str) : safe (print_all lines) (fun _ => True).
Proof.
  induction lines as [| l r IH]; simpl.
  - apply safe_ret. exact I.
  - eapply safe_bind; [apply (safe_print (Q := fun _ => True)); exact I |].
    intros _ _. exact IH.
Qed.

Lemma safe_load : safe load (fun _ => True).
Proof.
  intros st (Hm & Hd & Hp). eexists tt, _. split; [apply load_eq |].
  unfold wf_state. cbn [self path disk members locked].
  split; [| split; [reflexivity | exact I]].
  split; [| split; [exact Hd | exact Hp]].
  unfold wf_file in Hd.
  destruct (disk st !! path (self st)) as [[| | [l |]] |];
    first [exact Hd | constructor].
Qed.

Lemma sound_encodable (l : list member) :
  Forall sound_member l -> Forall encodable_member l.
Proof. intros H. eapply Forall_impl; [exact H |]. intros m [_ Hm]. exact Hm. Qed.

Lemma sound_wf (l : list member) : Forall sound_member l -> Forall wf_member l.
Proof. intros H. eapply Forall_impl; [exact H |]. intros m [Hm _]. exact Hm. Qed.

Lemma safe_save (b : bool) : safe (save b) (fun _ => True).
Proof.
  intros st (Hm & Hd & Hp). rewrite save_spec.
  destruct (b && _).
  - exists tt, st. split; [reflexivity |]. repeat split; assumption.
  - eexists tt, _.
    split; [apply write_json_ok; [exact Hp | apply sound_encodable, Hm] |].
    unfold wf_state. cbn [self path disk members locked].
    rewrite lookup_insert_eq. repeat split; assumption.
Qed.

Lemma wf_has_name (l : list member) : Forall sound_member l -> Forall has_name l.
Proof. intros H. eapply Forall_impl; [exact H |]. intros m [[Hm _] _]. exact Hm. Qed.

Lemma wf_has_role (l : list member) : Forall sound_member l -> Forall has_role l.
Proof. intros H. eapply Forall_impl; [exact H |]. intros m [[_ Hm] _]. exact Hm. Qed.

Lemma wf_mk_member (name role : str) : wf_member (mk_member name role).
Proof.
  split; [apply has_name_mk_member |].
  unfold has_role, role_of, mk_member.
  rewrite lookup_insert_ne by (vm_compute; discriminate).
  rewrite lookup_insert_eq. eauto.
Qed.

Lemma encodable_in_roles (r : str) : r ∈ ROLES -> encodable r = true.
Proof.
  assert (A : Forall (fun x => encodable x = true) ROLES)
    by (refine (bool_decide_unpack _ _); vm_compute; exact I).
  rewrite Forall_forall in A. apply A.
Qed.

Lemma safe_get_members : safe get_members (Forall sound_member).
Proof. intros st Hst. exists (members (self st)), st. repeat split; apply Hst. Qed.

Lemma safe_set_members (ms : list member) :
  Forall sound_member ms -> safe (set_members ms) (fun _ => True).
Proof.
  intros Hms st (Hm & Hd & Hp). eexists tt, _. split; [reflexivity |].
  repeat split; [exact Hms | exact Hd | exact Hp].
Qed.

(** A computation that returns a value in [Q] and keeps the state. *)
Lemma safe_of_eq {A} (c : M A) (Q : A -> Prop) :
  (forall st, exists a, c st = (Return a, st) /\ Q a) -> safe c Q.
Proof.
  intros H st Hst. destruct (H st) as (a & E & Qa). exists a, st. auto.
Qed.

Lemma safe_any_test (key : str) (p : str -> bool) (l : list member) :
  Forall (fun m => is_Some (m !! key)) l ->
  safe (any (test key p) l) (fun _ => True).
Proof.
  intros H. apply safe_of_eq. intros st. eexists. split; [| exact I].
  apply any_test, H.
Qed.

Lemma safe_first_index_test (key : str) (p : str -> bool) (l : list member) :
  Forall (fun m => is_Some (m !! key)) l ->
  safe (first_index (test key p) l 0) (fun _ => True).
Proof.
  intros H. apply safe_of_eq. intros st.
  destruct (first_index_test key p l 0 st H) as (r & E & _). eauto.
Qed.

Lemma Forall_list_filter {A} (P : A -> Prop) (f : A -> bool) (l : list A) :
  Forall P l -> Forall P (List.filter f l).
Proof.
  induction 1 as [| x r Hx _ IH]; simpl; [constructor |].
  destruct (f x); [constructor |]; assumption.
Qed.

Lemma safe_comprehension_test (key : str) (p : str -> bool) (l : list member) :
  Forall sound_member l ->
  Forall (fun m => is_Some (m !! key)) l ->
  safe (comprehension (test key p) l) (Forall sound_member).
Proof.
  intros Hw H. apply safe_of_eq. intros st. eexists.
  split; [apply comprehension_test, H |]. apply Forall_list_filter, Hw.
Qed.

Lemma safe_sorted (l : list member) (reverse : bool) :
  Forall sound_member l -> safe (sorted l by_name reverse) (Forall sound_member).
Proof.
  intros Hw. apply safe_of_eq. intros st. eexists.
  split; [apply sorted_by_name, wf_has_name, Hw |].
  rewrite arranged_perm. exact Hw.
Qed.

(** The member [add] appends is sound: its name has passed the pattern and
    its role, in lower case, is in the role set. *)
Lemma sound_new_member (b : bool) (name role_in : str) (pattern : regex) :
  negb (bool_decide
          ((if b then lower role_in else normalize_role role_in) ∈ ROLES))
  = false ->
  (if negb b then
     if negb ((2 <=? length name)%nat && (length name <=? 40)%nat)
     then inl (ERR, bad_name_msg)
     else inr (Regex name_class 2 40)
   else inr (Regex name_class 0 40)) = inr pattern ->
  negb (fullmatch pattern name) = false ->
  sound_member
    (<[u "name" := name]>
       (<[u "role" := if b then role_in else normalize_role role_in]> ∅)).
Proof.
  intros Hr Hp Hn. apply negb_false_iff in Hr, Hn.
  apply bool_decide_eq_true_1 in Hr.
  split; [apply (wf_mk_member name) |].
  apply (encodable_mk_member name).
  - destruct b; cbn [negb] in Hp.
    + injection Hp as <-. eapply encodable_name; exact Hn.
    + destruct (negb _) in Hp; [discriminate |]. injection Hp as <-.
      eapply encodable_name; exact Hn.
  - destruct b; [apply encodable_role, Hr | apply encodable_in_roles, Hr].
Qed.

Lemma safe_add (b : bool) (name role : str) :
  safe (add b name role) (fun _ => True).
Proof.
  unfold add. destruct (negb (bool_decide _)) eqn:Er.
  { destruct b; apply safe_ret; exact I. }
  destruct (if negb b then _ else _) as [early | pattern] eqn:Ep.
  { apply safe_ret; exact I. }
  destruct (negb (fullmatch _ _)) eqn:En.
  { apply safe_ret; exact I. }
  eapply safe_bind; [apply safe_get_members |]. intros ms Hms.
  eapply safe_bind.
  { destruct b; apply safe_any_test; apply (wf_has_name ms Hms). }
  intros [|] _; [apply safe_ret; exact I |].
  eapply safe_bind.
  { apply safe_set_members. apply Forall_app. split; [exact Hms |].
    constructor; [| constructor].
    exact (sound_new_member b _ _ pattern Er Ep En). }
  intros _ _. eapply safe_bind; [apply safe_save |].
  intros _ _. apply safe_ret. exact I.
Qed.

Lemma safe_remove (b : bool) (name : str) :
  safe (remove b name) (fun _ => True).
Proof.
  unfold remove.
  eapply safe_bind; [apply safe_get_members |]. intros ms Hms.
  eapply safe_bind.
  { destruct b; apply safe_first_index_test; apply (wf_has_name ms Hms). }
  intros [i |] _; [| apply safe_ret; exact I].
  eapply safe_bind; [apply safe_set_members, Forall_delete, Hms |].
  intros _ _. eapply safe_bind; [apply safe_get_members |]. intros ms' _.
  eapply safe_bind.
  { destruct (negb _); [apply safe_save | apply safe_ret; exact I]. }
  intros _ _. apply safe_ret. exact I.
Qed.

Lemma safe_list_all (b : bool) : safe (list_all b) (Forall sound_member).
Proof.
  unfold list_all. destruct b.
  - eapply safe_bind; [apply safe_load |]. intros _ _.
    eapply safe_bind; [apply safe_get_members |]. intros ms Hms.
    apply (safe_sorted ms true Hms).
  - eapply safe_bind; [apply safe_get_members |]. intros ms Hms.
    apply (safe_sorted ms false Hms).
Qed.

Lemma safe_list_by_role (b : bool) (role : str) :
  safe (list_by_role b role) (Forall sound_member).
Proof.
  unfold list_by_role.
  eapply safe_bind; [apply safe_get_members |]. intros ms Hms.
  eapply safe_bind.
  { destruct b; cbn [negb]; apply safe_comprehension_test;
      first [exact Hms | apply (wf_has_role ms Hms)]. }
  intros items Hi. apply (safe_sorted items b Hi).
Qed.

Lemma safe_count (b : bool) : safe (count b) (fun _ => True).
Proof.
  unfold count. eapply safe_bind; [apply safe_get_members |].
  intros ms _. apply safe_ret. exact I.
Qed.

Lemma safe_print_list (items : list member) :
  Forall sound_member items -> safe (print_list items) (fun _ => True).
Proof.
  intros H st Hst. eexists tt, _.
  split; [apply print_list_eq, sound_wf, H |].
  split; [exact Hst |]. split; [reflexivity | exact I].
Qed.

Lemma safe_status_line (c : M (str * str)) :
  safe c (fun _ => True) ->
  safe (r <- c ;; print (fst r ++ u ": " ++ snd r) ;;; ret true)
       (fun _ : bool => True).
Proof.
  intros Hc. eapply safe_bind; [exact Hc |]. intros r _.
  eapply safe_bind; [apply (safe_print (Q := fun _ => True)); exact I |].
  intros _ _. apply safe_ret. exact I.
Qed.

Lemma safe_listing (c : M (list member)) :
  safe c (Forall sound_member) ->
  safe (items <- c ;; print_list items ;;; ret true) (fun _ : bool => True).
Proof.
  intros Hc. eapply safe_bind; [exact Hc |]. intros items Hi.
  eapply safe_bind; [apply safe_print_list, Hi |].
  intros _ _. apply safe_ret. exact I.
Qed.

Lemma safe_answer (line : str) :
  safe (print line ;;; ret true) (fun _ : bool => True).
Proof.
  eapply safe_bind; [apply (safe_print (Q := fun _ => True)); exact I |].
  intros _ _. apply safe_ret. exact I.
Qed.

Lemma safe_dispatch (b : bool) (typed : str) :
  safe (dispatch b typed) (fun _ => True).
Proof.
  unfold dispatch.
  destruct (length (strip typed) =? 0)%nat; [apply safe_ret; exact I |].
  destruct (bool_decide (_ ∈ [u "exit"; u "quit"])); [apply safe_ret; exact I |].
  destruct (bool_decide (_ ∈ [u "help"; u "--help"; u "-h"])).
  { eapply safe_bind; [apply safe_print_all |]. intros _ _.
    apply safe_ret. exact I. }
  destruct (bool_decide (_ = u "add")).
  { destruct (_ <? 3)%nat; [apply safe_answer |].
    apply safe_status_line, safe_add. }
  destruct (bool_decide (_ = u "list")).
  { destruct (_ =? 1)%nat; [apply safe_listing, safe_list_all |].
    destruct (_ && _); [apply safe_listing, safe_list_by_role |].
    apply safe_answer. }
  destruct (bool_decide (_ = u "count")).
  { eapply safe_bind; [apply safe_count |]. intros n _. apply safe_answer. }
  destruct (bool_decide (_ = u "remove")).
  { destruct (_ <? 2)%nat; [apply safe_answer |].
    apply safe_status_line, safe_remove. }
  apply safe_answer.
Qed.

Lemma safe_repl_loop (b : bool) (stdin : list key_event) :
  safe (repl_loop b stdin) (fun _ => True).
Proof.
  induction stdin as [| [typed |] rest IH]; simpl.
  - apply (safe_print (Q := fun _ => True)). exact I.
  - eapply safe_bind; [apply safe_dispatch |].
    intros [|] _; [exact IH | apply safe_ret; exact I].
  - apply (safe_print (Q := fun _ => True)). exact I.
Qed.

(** X19. No operation of the store raises when the data file can be opened
    for writing and every record of the roster and of the data file has a
    name and a role and holds no lone surrogate: [add], [remove], [list_all]
    and [list_by_role] then return normally under either setting of the
    flag, whatever their arguments, and leave such a roster and data file. *)
Theorem store_never_raises_on_sound_state (b : bool) (st : state) :
  wf_state st ->
  (forall name role, exists r st',
      add b name role st = (Return r, st') /\ wf_state st')
  /\ (forall name, exists r st',
        remove b name st = (Return r, st') /\ wf_state st')
  /\ (exists items st',
        list_all b st = (Return items, st') /\ wf_state st'
        /\ Forall sound_member items)
  /\ (forall role, exists items st',
        list_by_role b role st = (Return items, st') /\ wf_state st'
        /\ Forall sound_member items).
Proof.
  intros Hst. repeat apply conj.
  - intros name role.
    destruct (safe_add b name role st Hst) as (r & st' & E & H & _). eauto.
  - intros name.
    destruct (safe_remove b name st Hst) as (r & st' & E & H & _). eauto.
  - destruct (safe_list_all b st Hst) as (r & st' & E & H & _ & Q). eauto.
  - intros role.
    destruct (safe_list_by_role b role st Hst) as (r & st' & E & H & _ & Q).
    eauto.
Qed.

(** X20. The command loop never raises when [members.json] can be opened
    for writing and, if it holds an array, every record of it has a name
    and a role and holds no lone surrogate: whatever is typed, and whatever
    the roster was before, [repl] returns normally at the end of the input,
    at an interrupt or at [exit], leaving such a roster and data file. *)
Theorem repl_never_raises_on_sound_file (b : bool)
    (stdin : list key_event) (st : state) :
  wf_file (disk st !! DATA_FILE) ->
  DATA_FILE ∉ locked st ->
  exists st', repl b stdin st = (Return tt, st') /\ wf_state st'
              /\ path (self st') = DATA_FILE.
Proof.
  intros Hd Hp. unfold repl, init.
  assert (W : wf_state (mkState (mkStore DATA_FILE []) (disk st) (stdout st)
                          (locked st)))
    by (split; [constructor | split; [exact Hd | exact Hp]]).
  assert (S : safe (load ;;; print banner ;;; repl_loop b stdin)
                   (fun _ => True)).
  { eapply safe_bind; [apply safe_load |]. intros _ _.
    eapply safe_bind; [apply (safe_print (Q := fun _ => True)); exact I |].
    intros _ _. apply safe_repl_loop. }
  destruct (S _ W) as ([] & st' & E & H & P & _).
  exists st'. split; [exact E |]. split; [exact H | exact P].
Qed.

Lemma three_members_wf : wf_state three_members.
Proof.
  split; [| split].
  - refine (bool_decide_unpack _ _). vm_compute. exact I.
  - assert (E : disk three_members !! path (self three_members)
                = Some (Text (JList (members (self three_members)))))
      by (vm_compute; reflexivity).
    rewrite E. refine (bool_decide_unpack _ _). vm_compute. exact I.
  - refine (bool_decide_unpack _ _). vm_compute. exact I.
Defined.

Lemma store_never_raises_on_sound_state_witness :
  (forall name role, exists r st',
      add BUG_MODE name role three_members = (Return r, st') /\ wf_state st')
  /\ (forall name, exists r st',
        remove BUG_MODE name three_members = (Return r, st') /\ wf_state st')
  /\ (exists items st',
        list_all BUG_MODE three_members = (Return items, st') /\ wf_state st'
        /\ Forall sound_member items)
  /\ (forall role, exists items st',
        list_by_role BUG_MODE role three_members = (Return items, st')
        /\ wf_state st' /\ Forall sound_member items).
Proof.
  apply (store_never_raises_on_sound_state BUG_MODE three_members).
  exact three_members_wf.
Defined.

Lemma repl_never_raises_on_sound_file_witness :
  exists st',
    repl BUG_MODE [Typed (u "remove anna"); Typed (u "list --role механик");
                   CtrlC] three_members
    = (Return tt, st')
    /\ wf_state st' /\ path (self st') = DATA_FILE.
Proof.
  apply (repl_never_raises_on_sound_file BUG_MODE
           [Typed (u "remove anna"); Typed (u "list --role механик"); CtrlC]
           three_members).
  - assert (E : disk three_members !! DATA_FILE
                = Some (Text (JList (members (self three_members)))))
      by (vm_compute; reflexivity).
    rewrite E. refine (bool_decide_unpack _ _). vm_compute. exact I.
  - refine (bool_decide_unpack _ _). vm_compute. exact I.
Defined.

(** ** Answers of the command loop *)

(** A closed test of the command word is settled by evaluation. *)
Ltac settle_test :=
  match goal with
  | |- context [bool_decide ?P] =>
      let E := fresh "E" in
      first [ assert (E : bool_decide P = false) by (vm_compute; reflexivity)
            | assert (E : bool_decide P = true) by (vm_compute; reflexivity) ];
      rewrite E; clear E
  end.

Lemma length_nonzero (s : str) : s <> [] -> (length s =? 0)%nat = false.
Proof. destruct s; [contradiction | reflexivity]. Qed.

(** X21. The loop answers with the one line ["ERR: unknown command"], goes
    on, and touches neither the store nor the file system, in three cases:
    the command word is none of the known ones; the word is [add] with fewer
    than two arguments; the word is [list] with arguments that are not
    [--role] followed by a role.  The three cases cannot be told apart from
    the answer. *)
Theorem dispatch_generic_answer (typed : str) (st : state) :
  let parts := split (strip typed) in
  let cmd := lower (nth 0 parts []) in
  strip typed <> [] ->
  cmd ∉ known_commands
  \/ (cmd = u "add" /\ (length parts < 3)%nat)
  \/ (cmd = u "list" /\ length parts <> 1%nat
      /\ ((length parts < 3)%nat \/ nth 1 parts [] <> u "--role")) ->
  dispatch BUG_MODE typed st
  = (Return true, printed st [u "ERR: unknown command"]).
Proof.
  intros parts cmd Hne H. unfold dispatch, BUG_MODE.
  rewrite (length_nonzero _ Hne). fold parts. fold cmd.
  destruct H as [H | [[Hc Hl] | (Hc & Hl & Ha)]].
  - unfold known_commands in H. rewrite !not_elem_of_cons in H.
    destruct H as (H1 & H2 & H3 & H4 & H5 & H6 & H7 & H8 & H9 & _).
    rewrite (bool_decide_eq_false_2 (cmd ∈ [u "exit"; u "quit"]))
      by (rewrite !not_elem_of_cons; auto using not_elem_of_nil).
    rewrite (bool_decide_eq_false_2 (cmd ∈ [u "help"; u "--help"; u "-h"]))
      by (rewrite !not_elem_of_cons; auto using not_elem_of_nil).
    rewrite !bool_decide_eq_false_2 by assumption. reflexivity.
  - rewrite Hc. repeat settle_test.
    apply Nat.ltb_lt in Hl. rewrite Hl. reflexivity.
  - rewrite Hc. repeat settle_test.
    apply Nat.eqb_neq in Hl. rewrite Hl.
    replace (_ && _) with false; [reflexivity |].
    symmetry. apply andb_false_iff. destruct Ha as [Ha | Ha].
    + left. apply Nat.leb_gt. exact Ha.
    + right. apply bool_decide_eq_false_2. exact Ha.
Qed.

Lemma dispatch_generic_answer_witness :
  dispatch BUG_MODE (u "add Ann") three_members
  = (Return true, printed three_members [u "ERR: unknown command"])
  /\ dispatch BUG_MODE (u "LIST all") three_members
     = (Return true, printed three_members [u "ERR: unknown command"])
  /\ dispatch BUG_MODE (u "delete Ann") three_members
     = (Return true, printed three_members [u "ERR: unknown command"]).
Proof.
  repeat apply conj.
  - apply (dispatch_generic_answer (u "add Ann") three_members).
    + vm_compute. discriminate.
    + right. left. split; [vm_compute; reflexivity | vm_compute; lia].
  - apply (dispatch_generic_answer (u "LIST all") three_members).
    + vm_compute. discriminate.
    + right. right. split; [vm_compute; reflexivity |].
      split; [vm_compute; lia | left; vm_compute; lia].
  - apply (dispatch_generic_answer (u "delete Ann") three_members).
    + vm_compute. discriminate.
    + left. refine (bool_decide_unpack _ _). vm_compute. exact I.
Defined.

Lemma dispatch_quits (b : bool) (typed : str) (st : state) :
  quits typed -> dispatch b typed st = (Return false, st).
Proof.
  intros [Hne Hq]. unfold dispatch. rewrite (length_nonzero _ Hne).
  rewrite (bool_decide_eq_true_2 _ Hq). reflexivity.
Qed.

Lemma repl_loop_cut (b : bool) (typed : str) (before after : list key_event)
    (st : state) :
  quits typed ->
  repl_loop b (before ++ Typed typed :: after) st
  = repl_loop b (before ++ [Typed typed]) st.
Proof.
  intros Hq. revert st. induction before as [| [t |] r IH]; intros st.
  - simpl. unfold bind. rewrite (dispatch_quits b typed st Hq). reflexivity.
  - cbn [app repl_loop]. unfold bind.
    destruct (dispatch b t st) as [[[|] | e] st1]; [apply IH | | ]; reflexivity.
  - reflexivity.
Qed.

(** X22. Nothing typed after an [exit] or [quit] line has any effect: the
    loop behaves as if the input ended with that line.  The command word is
    compared in lower case and its arguments are ignored, and the loop
    stops without printing. *)
Theorem nothing_runs_after_exit (b : bool) (typed : str)
    (before after : list key_event) (st : state) :
  quits typed ->
  repl b (before ++ Typed typed :: after) st
  = repl b (before ++ [Typed typed]) st
  /\ repl_loop b (Typed typed :: after) st = (Return tt, st).
Proof.
  intros Hq. split.
  - unfold repl, bind. destruct (init DATA_FILE st) as [[[] | e] st1];
      [| reflexivity].
    destruct (print banner st1) as [[[] | e] st2]; [| reflexivity].
    apply repl_loop_cut, Hq.
  - simpl. unfold bind. rewrite (dispatch_quits b typed st Hq). reflexivity.
Qed.

Lemma nothing_runs_after_exit_witness :
  repl BUG_MODE ([Typed (u "count")] ++ Typed (u " QUIT now ")
                 :: [Typed (u "remove Zoya")]) three_members
  = repl BUG_MODE ([Typed (u "count")] ++ [Typed (u " QUIT now ")])
      three_members
  /\ repl_loop BUG_MODE (Typed (u " QUIT now ") :: [Typed (u "remove Zoya")])
       three_members
     = (Return tt, three_members).
Proof.
  apply (nothing_runs_after_exit BUG_MODE (u " QUIT now ") [Typed (u "count")]
           [Typed (u "remove Zoya")] three_members).
  refine (bool_decide_unpack _ _). vm_compute. exact I.
Defined.

(** ** [load] again *)

(** X23. Loading twice leaves the store and the file system as loading
    once does; only the diagnostic of a file that cannot be read or parsed
    is printed a second time. *)
Theorem load_twice (st : state) :
  self (exec (load ;;; load) st) = self (exec load st)
  /\ disk (exec (load ;;; load) st) = disk (exec load st)
  /\ stdout (exec (load ;;; load) st)
     = stdout (exec load st)
       ++ match disk st !! path (self st) with
          | Some Unreadable | Some Malformed =>
              [u "ERR: ошибка чтения файла данных"]
          | _ => []
          end.
Proof.
  unfold exec, bind. rewrite load_eq, load_eq.
  cbn [snd self path disk members stdout].
  destruct (disk st !! path (self st)) as [[| | [l |]] |];
    rewrite ?app_nil_r; auto.
Qed.

(** Sorting by name passes the state through and does not read it. *)
Lemma decorate_state_free (l : list member) :
  exists o, forall st, decorate by_name l st = (o, st).
Proof.
  induction l as [| x r [o IH]].
  - exists (Return []). reflexivity.
  - destruct (name_of x) as [v |] eqn:E.
    + exists (match o with
              | Return rest => Return ((v, x) :: rest)
              | Raise e => Raise e
              end).
      intros st. cbn [decorate]. unfold bind at 1, by_name at 1, getitem.
      unfold name_of in E. rewrite E. cbn [ret]. unfold bind. rewrite IH.
      destruct o; reflexivity.
    + exists (Raise (KeyError (u "name"))).
      intros st. cbn [decorate]. unfold bind at 1, by_name at 1, getitem.
      unfold name_of in E. rewrite E. reflexivity.
Qed.

Lemma sorted_state_free (l : list member) (reverse : bool) :
  exists o, forall st, sorted l by_name reverse st = (o, st).
Proof.
  destruct (decorate_state_free l) as [o Ho].
  exists (match o with
          | Return ks => Return (map snd (arrange reverse ks))
          | Raise e => Raise e
          end).
  intros st. unfold sorted, bind. rewrite Ho. destruct o; reflexivity.
Qed.

(** X24. What [list_all] returns and the store it leaves depend on the
    path and the file system only, not on the roster in memory: two states
    that agree on those give the same result and the same store. *)
Theorem list_all_ignores_memory (st1 st2 : state) :
  path (self st1) = path (self st2) ->
  disk st1 = disk st2 ->
  result (list_all BUG_MODE) st1 = result (list_all BUG_MODE) st2
  /\ self (exec (list_all BUG_MODE) st1) = self (exec (list_all BUG_MODE) st2).
Proof.
  intros Hp Hd. split.
  - unfold result, list_all, BUG_MODE. unfold bind at 1 3. rewrite !load_eq.
    unfold bind, get_members. cbn [self members path disk]. rewrite Hp, Hd.
    change (fun x : member => getitem x (u "name")) with by_name.
    match goal with
    | |- context [sorted ?ms by_name true _] =>
        destruct (sorted_state_free ms true) as [o Ho]
    end.
    rewrite !Ho. reflexivity.
  - rewrite !list_all_exec. unfold BUG_MODE, exec. rewrite !load_eq.
    cbn [snd self]. rewrite Hp, Hd. reflexivity.
Qed.

Lemma list_all_ignores_memory_witness :
  result (list_all BUG_MODE) after_remove_last
  = result (list_all BUG_MODE)
      (exec (add BUG_MODE (u "Мария") (u "штурман")) fresh)
  /\ self (exec (list_all BUG_MODE) after_remove_last)
     = self (exec (list_all BUG_MODE)
               (exec (add BUG_MODE (u "Мария") (u "штурман")) fresh)).
Proof.
  apply (list_all_ignores_memory after_remove_last
           (exec (add BUG_MODE (u "Мария") (u "штурман")) fresh)).
  - vm_compute. reflexivity.
  - vm_compute. reflexivity.
Defined.
